(** * CRUD Tkinter/SQLite: the client model and the base window

    A shallow embedding of [models/client_model.py] (the [Client] dataclass
    and the [ClientDAO] operations) and of the two computational methods of
    [classes/base_window.py] ([FenetreBase._centrer] and
    [FenetreBase.charger_image]), with the properties the specification
    states about them. *)

From Stdlib Require Import ZArith Lia Ascii String DecimalString Floats.SpecFloat.
From stdpp Require Import gmap strings list sorting.

Local Open Scope string_scope.
Local Open Scope Z_scope.
Local Open Scope list_scope.

(** ** Python values and results *)

(** The values that cross the sqlite3 boundary: [None], [int], [float]
    and [str].  A [str] is the sequence of its UTF-8 bytes. *)
Inductive valeur : Type :=
| VNull
| VInt (n : Z)
| VReal (f : spec_float)
| VText (s : string).

(** The exceptions the modelled code can let escape. *)
Inductive exception : Type :=
| IndexError      (* row["colonne"] on a row without that column *)
| HorsType        (* a value outside the type the dataclass declares *)
| TclError.       (* an error reported by the Tk interpreter *)

(** A call either returns or raises. *)
Inductive resultat (A : Type) : Type :=
| Retour (a : A)
| Leve (e : exception).
Arguments Retour {A} a.
Arguments Leve {A} e.

#[global] Instance resultat_ret : MRet resultat := fun A a => Retour a.

#[global] Instance resultat_bind : MBind resultat := fun A B k r =>
  match r with
  | Retour a => k a
  | Leve e => Leve e
  end.

(** A list comprehension [[f(a) for a in l]] whose body may raise. *)
Fixpoint pour_chaque {A B} (f : A -> resultat B) (l : list A) : resultat (list B) :=
  match l with
  | [] => Retour []
  | a :: l' => b ← f a; bs ← pour_chaque f l'; Retour (b :: bs)
  end.

(** A [sqlite3.Row]: the columns of one result line, looked up by name. *)
Definition Row : Type := list (string * valeur).

Fixpoint row_get (row : Row) (colonne : string) : resultat valeur :=
  match row with
  | [] => Leve IndexError
  | (c, v) :: row' => if String.eqb c colonne then Retour v else row_get row' colonne
  end.

(** Reading a Python value at the type a field is declared with. *)
Definition en_int (v : valeur) : resultat Z :=
  match v with VInt n => Retour n | _ => Leve HorsType end.

Definition en_int_optionnel (v : valeur) : resultat (option Z) :=
  match v with
  | VNull => Retour None
  | VInt n => Retour (Some n)
  | _ => Leve HorsType
  end.

Definition en_str (v : valeur) : resultat string :=
  match v with VText s => Retour s | _ => Leve HorsType end.

Definition en_float (v : valeur) : resultat spec_float :=
  match v with VReal f => Retour f | _ => Leve HorsType end.

(** Python's [bool(x)]: the truth value of an object. *)
Definition bool_de (v : valeur) : bool :=
  match v with
  | VNull => false
  | VInt n => negb (n =? 0)
  | VReal (S754_zero _) => false
  | VReal _ => true
  | VText s => negb (String.eqb s "")
  end.

(** Python's [int(b)] on a [bool]. *)
Definition int_de_bool (b : bool) : Z := if b then 1 else 0.

(** Python's [s * n] on a [str]. *)
Fixpoint str_fois (s : string) (n : nat) : string :=
  match n with
  | O => ""
  | S n' => String.append s (str_fois s n')
  end.

(** Iterating over a [str] yields its characters, each a [str]. *)
Fixpoint caracteres (s : string) : list string :=
  match s with
  | EmptyString => []
  | String c s' => String c "" :: caracteres s'
  end.

(** Python's [sep.join(parts)]. *)
Definition str_join (sep : string) (parts : list string) : string :=
  String.concat sep parts.

Module Database.

(** ** The database handle

    [core/database.py], which defines [GestionnaireBase], is not among the
    sources at hand.  The DAO uses two of its methods, [executer] and
    [interroger], and sends them eight SQL texts; this module gives the
    handle, the table and the meaning of those eight statements. *)

(** Modelled from the spec: one line of the table Clients, which
    [core/database.py] creates.  The persisted schema is, in order:
    identifier, name, phone, address, postal code, city, birth date (text),
    available credit (real), preferred flag (0/1 integer), hair colour
    (text); every column holds a value of its declared type. *)
Record Ligne : Type := {
  c_IDCLIENT          : Z;
  c_nom_client        : string;
  c_numero_telephone  : string;
  c_adresse           : string;
  c_code_postal       : string;
  c_ville             : string;
  c_date_naissance    : string;
  c_credit_disponible : spec_float;
  c_bon_client        : Z;
  c_couleur_cheveux   : string
}.

(** [SELECT *] gives the ten columns of a line under their names. *)
Definition row_de_ligne (l : Ligne) : Row :=
  [ ("IDCLIENT", VInt (c_IDCLIENT l));
    ("nom_client", VText (c_nom_client l));
    ("numero_telephone", VText (c_numero_telephone l));
    ("adresse", VText (c_adresse l));
    ("code_postal", VText (c_code_postal l));
    ("ville", VText (c_ville l));
    ("date_naissance", VText (c_date_naissance l));
    ("credit_disponible", VReal (c_credit_disponible l));
    ("bon_client", VInt (c_bon_client l));
    ("couleur_cheveux", VText (c_couleur_cheveux l)) ].

(** The SQL texts [models/client_model.py] sends, one constructor each. *)
Inductive requete : Type :=
| SELECT_prochain
    (* SELECT COALESCE(MAX(IDCLIENT), 0) + 1 AS prochain FROM Clients; *)
| INSERT_client
    (* INSERT INTO Clients (IDCLIENT, nom_client, ..., couleur_cheveux)
       VALUES (?, ?, ?, ?, ?, ?, ?, ?, ?, ?); *)
| SELECT_par_id
    (* SELECT * FROM Clients WHERE IDCLIENT = ?; *)
| UPDATE_client
    (* UPDATE Clients SET nom_client = ?, ..., couleur_cheveux = ?
       WHERE IDCLIENT = ?; *)
| DELETE_par_id
    (* DELETE FROM Clients WHERE IDCLIENT = ?; *)
| DELETE_parmi (placeholders : string)
    (* DELETE FROM Clients WHERE IDCLIENT IN ({placeholders}); *)
| SELECT_par_nom
    (* SELECT * FROM Clients WHERE nom_client LIKE ?
       ORDER BY nom_client ASC; *)
| SELECT_total.
    (* SELECT COUNT( * ) AS total FROM Clients; *)

(** An [sqlite3.Cursor], of which the DAO only tests the presence. *)
Record Curseur : Type := { rowcount : Z }.

(** Modelled from the spec: the handle [GestionnaireBase] of
    [core/database.py].  It holds a connection, usable or not, whose
    engine settings and table constraints are those the absent module set
    up, and the table itself. *)
Record GestionnaireBase : Type := {
  connectee  : bool;               (* the connection is usable *)
  casse_like : bool;               (* PRAGMA case_sensitive_like *)
  contrainte : Ligne -> bool;      (* the CHECK constraints of the table *)
  clients    : list Ligne;         (* the table Clients, in storage order *)
  journal    : list (requete * list valeur)
                                   (* every call made to executer, oldest first *)
}.

(** *** SQL operators *)

(** [MAX(...)] over a column: NULL on no line. *)
Definition sql_max (col : list Z) : option Z :=
  match col with
  | [] => None
  | x :: col' => Some (fold_left Z.max col' x)
  end.

(** [COALESCE(x, d)]. *)
Definition coalesce (x : option Z) (d : Z) : Z :=
  match x with Some v => v | None => d end.

(** *** Texts as LIKE reads them

    A Python [str] reaches the engine as its UTF-8 bytes.  The LIKE operator
    reads both operands as C strings of UTF-8 characters: the text ends at
    its first NUL byte and is consumed one character at a time. *)

(** The text up to its first NUL byte. *)
Fixpoint avant_nul (s : string) : string :=
  match s with
  | EmptyString => EmptyString
  | String a s' => if Ascii.eqb a zero then EmptyString else String a (avant_nul s')
  end.

(** The payload bits of a lead byte (the engine's table [sqlite3Utf8Trans1]). *)
Definition Utf8Trans1 (b : N) : N :=
  (if b <? 0xE0 then N.land b 0x1F
   else if b <? 0xF0 then N.land b 0x0F
   else if b <? 0xF8 then N.land b 0x07
   else if b <? 0xFC then N.land b 0x03
   else if b <? 0xFE then N.land b 0x01
   else 0)%N.

(** A continuation byte: [10xxxxxx]. *)
Definition octet_de_suite (b : N) : bool := (N.land b 0xC0 =? 0x80)%N.

(** One more continuation byte in a 32-bit accumulator. *)
Definition ajouter (c b : N) : N := ((c * 64 + N.land b 0x3F) mod 2 ^ 32)%N.

(** The character read once its continuation bytes are consumed: an
    over-long form, a surrogate, [0xFFFE] and [0xFFFF] are read as [0xFFFD]. *)
Definition clore (c : N) : N :=
  (if (c <? 0x80) || (N.land c 0xFFFFF800 =? 0xD800) || (N.land c 0xFFFFFFFE =? 0xFFFE)
   then 0xFFFD else c)%N.

(** The characters of a byte string, read as the engine's [sqlite3Utf8Read]
    reads them: a byte below [0xC0] is a character of its own; a byte from
    [0xC0] starts a character that takes every continuation byte that
    follows.  [en_cours] is the character being read, if any. *)
Fixpoint lire_utf8 (en_cours : option N) (s : string) : list N :=
  match s with
  | EmptyString => match en_cours with Some c => [clore c] | None => [] end
  | String a s' =>
      let b := N_of_ascii a in
      let debut := if (0xC0 <=? b)%N then lire_utf8 (Some (Utf8Trans1 b)) s'
                   else b :: lire_utf8 None s' in
      match en_cours with
      | Some c => if octet_de_suite b then lire_utf8 (Some (ajouter c b)) s'
                  else clore c :: debut
      | None => debut
      end
  end.

(** The characters LIKE sees in a text. *)
Definition caracteres_sql (s : string) : list N := lire_utf8 None (avant_nul s).

(** The two wildcards, as characters. *)
Definition pour_cent : N := 37.
Definition souligne : N := 95.

(** SQLite folds the 26 ASCII upper-case letters only. *)
Definition minuscule (c : N) : N :=
  if ((65 <=? c) && (c <=? 90))%N then (c + 32)%N else c.

(** Two characters LIKE takes for the same: equal, or, unless
    [case_sensitive_like] is set, two ASCII characters equal once folded. *)
Definition meme_caractere (casse : bool) (c d : N) : bool :=
  (c =? d)%N ||
  (negb casse && (c <? 0x80)%N && (d <? 0x80)%N && (minuscule c =? minuscule d)%N).

(** LIKE on characters: [%] stands for any run of characters, [_] for any
    one character, every other character for itself.  No escape character
    is declared. *)
Fixpoint like_car (casse : bool) (motif texte : list N) : bool :=
  match motif with
  | [] => match texte with [] => true | _ :: _ => false end
  | c :: motif' =>
      if (c =? pour_cent)%N then
        (fix etoile (t : list N) : bool :=
           like_car casse motif' t ||
           match t with
           | [] => false
           | _ :: t' => etoile t'
           end) texte
      else
        match texte with
        | [] => false
        | d :: texte' =>
            ((c =? souligne)%N || meme_caractere casse c d) && like_car casse motif' texte'
        end
  end.

(** [texte LIKE motif], on the UTF-8 characters of both operands. *)
Definition like (casse : bool) (motif texte : string) : bool :=
  like_car casse (caracteres_sql motif) (caracteres_sql texte).

(** [ORDER BY nom_client ASC] under the BINARY collation. *)
Definition ordre_nom : relation Ligne :=
  fun a b => String.leb (c_nom_client a) (c_nom_client b) = true.

#[global] Instance ordre_nom_dec : RelDecision ordre_nom.
Proof. intros a b. unfold ordre_nom. apply _. Defined.

(** The number of [?] markers in a piece of SQL text. *)
Fixpoint nombre_marques (s : string) : nat :=
  match s with
  | EmptyString => 0%nat
  | String c s' => ((if Ascii.eqb c "?" then 1 else 0) + nombre_marques s')%nat
  end.

(** *** Binding parameters to columns *)

(** The nine data columns; NaN is bound as NULL, which a REAL column of
    the schema does not hold. *)
Definition lier_champs (params : list valeur) : option (Z -> Ligne) :=
  match params with
  | [VText nom; VText tel; VText adr; VText cp; VText vil; VText dat;
     VReal cre; VInt bon; VText cou] =>
      match cre with
      | S754_nan => None
      | _ => Some (fun id =>
          {| c_IDCLIENT := id; c_nom_client := nom; c_numero_telephone := tel;
             c_adresse := adr; c_code_postal := cp; c_ville := vil;
             c_date_naissance := dat; c_credit_disponible := cre;
             c_bon_client := bon; c_couleur_cheveux := cou |})
      end
  | _ => None
  end.

(** A parameter compared with IDCLIENT: an integer, or NULL, which equals
    no identifier. *)
Definition lier_cle (v : valeur) : option (option Z) :=
  match v with
  | VInt n => Some (Some n)
  | VNull => Some None
  | _ => None
  end.

Fixpoint lier_cles (params : list valeur) : option (list (option Z)) :=
  match params with
  | [] => Some []
  | v :: params' =>
      match lier_cle v, lier_cles params' with
      | Some k, Some ks => Some (k :: ks)
      | _, _ => None
      end
  end.

Definition cle_egale (cle : option Z) (l : Ligne) : bool :=
  match cle with
  | Some i => c_IDCLIENT l =? i
  | None => false
  end.

Definition cle_parmi (cles : list (option Z)) (l : Ligne) : bool :=
  existsb (fun cle => cle_egale cle l) cles.

(** *** Running one statement *)

Record Effet : Type := {
  lignes_rendues  : list Row;
  table_apres     : list Ligne;
  lignes_touchees : Z
}.

Definition lecture (rows : list Row) (table : list Ligne) : option Effet :=
  Some {| lignes_rendues := rows; table_apres := table; lignes_touchees := -1 |}.

Definition ecriture (table' : list Ligne) (n : nat) : option Effet :=
  Some {| lignes_rendues := []; table_apres := table'; lignes_touchees := Z.of_nat n |}.

(** Modelled from the spec: what SQLite does with each statement on the
    table of [db], the engine being reached through [core/database.py].
    [None] is an [sqlite3.Error]: a wrong number of bindings, a violated
    constraint, a value the column does not hold. *)
Definition evaluer (db : GestionnaireBase) (req : requete) (params : list valeur)
  : option Effet :=
  let table := clients db in
  match req with
  | SELECT_prochain =>
      match params with
      | [] =>
          let prochain := coalesce (sql_max (map c_IDCLIENT table)) 0 + 1 in
          lecture [[("prochain", VInt prochain)]] table
      | _ => None
      end
  | INSERT_client =>
      match params with
      | VInt id :: champs =>
          match lier_champs champs with
          | Some ligne =>
              if existsb (cle_egale (Some id)) table then None
              else if contrainte db (ligne id) then ecriture (table ++ [ligne id]) 1
              else None
          | None => None
          end
      | _ => None
      end
  | SELECT_par_id =>
      match params with
      | [v] =>
          match lier_cle v with
          | Some cle => lecture (map row_de_ligne (filter (fun l => cle_egale cle l) table)) table
          | None => None
          end
      | _ => None
      end
  | UPDATE_client =>
      match params with
      | [nom; tel; adr; cp; vil; dat; cre; bon; cou; v] =>
          match lier_cle v with
          | Some cle =>
              let cibles := filter (fun l => cle_egale cle l) table in
              match cibles with
              | [] => ecriture table 0
              | _ :: _ =>
                  match lier_champs [nom; tel; adr; cp; vil; dat; cre; bon; cou] with
                  | Some ligne =>
                      if forallb (fun l => contrainte db (ligne (c_IDCLIENT l))) cibles
                      then ecriture
                             (map (fun l => if cle_egale cle l
                                            then ligne (c_IDCLIENT l) else l) table)
                             (length cibles)
                      else None
                  | None => None
                  end
              end
          | None => None
          end
      | _ => None
      end
  | DELETE_par_id =>
      match params with
      | [v] =>
          match lier_cle v with
          | Some cle =>
              ecriture (filter (fun l => negb (cle_egale cle l)) table)
                       (length (filter (fun l => cle_egale cle l) table))
          | None => None
          end
      | _ => None
      end
  | DELETE_parmi placeholders =>
      if Nat.eqb (nombre_marques placeholders) (length params) then
        match lier_cles params with
        | Some cles =>
            ecriture (filter (fun l => negb (cle_parmi cles l)) table)
                     (length (filter (fun l => cle_parmi cles l) table))
        | None => None
        end
      else None
  | SELECT_par_nom =>
      match params with
      | [VText motif] =>
          let retenues :=
            filter (fun l => like (casse_like db) motif (c_nom_client l)) table in
          lecture (map row_de_ligne (merge_sort ordre_nom retenues)) table
      | _ => None
      end
  | SELECT_total =>
      match params with
      | [] => lecture [[("total", VInt (Z.of_nat (length table)))]] table
      | _ => None
      end
  end.

(** The handle after a call to [executer]: the call is recorded and the
    table is [table']. *)
Definition noter (db : GestionnaireBase) (req : requete) (params : list valeur)
    (table' : list Ligne) : GestionnaireBase :=
  {| connectee := connectee db; casse_like := casse_like db;
     contrainte := contrainte db; clients := table';
     journal := journal db ++ [(req, params)] |}.

(** Modelled from the spec: [GestionnaireBase.executer(sql, params)] of
    [core/database.py] returns the cursor, or the failure value [None]
    when the statement could not be run; a statement that ran is
    committed. *)
Definition executer (db : GestionnaireBase) (req : requete) (params : list valeur)
  : option Curseur * GestionnaireBase :=
  if connectee db then
    match evaluer db req params with
    | Some e => (Some {| rowcount := lignes_touchees e |}, noter db req params (table_apres e))
    | None => (None, noter db req params (clients db))
    end
  else (None, noter db req params (clients db)).

(** Modelled from the spec: [GestionnaireBase.interroger(sql, params)] of
    [core/database.py] returns the ordered sequence of result rows, or the
    empty sequence when the query could not be run. *)
Definition interroger (db : GestionnaireBase) (req : requete) (params : list valeur)
  : list Row :=
  if connectee db then
    match evaluer db req params with
    | Some e => lignes_rendues e
    | None => []
    end
  else [].

End Database.

Module ClientModel.

(** ** The dataclass [Client] *)

Record Client : Type := {
  idclient          : option Z;
  nom_client        : string;
  numero_telephone  : string;
  adresse           : string;
  code_postal       : string;
  ville             : string;
  date_naissance    : string;
  credit_disponible : spec_float;
  bon_client        : bool;
  couleur_cheveux   : string
}.

(** [Client()] with every field at its default. *)
Definition Client_defaut : Client := {|
  idclient := None; nom_client := ""; numero_telephone := ""; adresse := "";
  code_postal := ""; ville := ""; date_naissance := "";
  credit_disponible := S754_zero false; bon_client := false;
  couleur_cheveux := "brun" |}.

Definition en_tuple_insertion (self : Client) : list valeur :=
  [ VText (nom_client self);
    VText (numero_telephone self);
    VText (adresse self);
    VText (code_postal self);
    VText (ville self);
    VText (date_naissance self);
    VReal (credit_disponible self);
    VInt (int_de_bool (bon_client self));
    VText (couleur_cheveux self) ].

Definition valeur_de_id (i : option Z) : valeur :=
  match i with Some n => VInt n | None => VNull end.

Definition en_tuple_modification (self : Client) : list valeur :=
  [ VText (nom_client self);
    VText (numero_telephone self);
    VText (adresse self);
    VText (code_postal self);
    VText (ville self);
    VText (date_naissance self);
    VReal (credit_disponible self);
    VInt (int_de_bool (bon_client self));
    VText (couleur_cheveux self);
    valeur_de_id (idclient self) ].

Definition depuis_row (row : Row) : resultat Client :=
  v_id ← row_get row "IDCLIENT";
  v_nom ← row_get row "nom_client";
  v_tel ← row_get row "numero_telephone";
  v_adr ← row_get row "adresse";
  v_cp ← row_get row "code_postal";
  v_vil ← row_get row "ville";
  v_dat ← row_get row "date_naissance";
  v_cre ← row_get row "credit_disponible";
  v_bon ← row_get row "bon_client";
  v_cou ← row_get row "couleur_cheveux";
  id ← en_int_optionnel v_id;
  nom ← en_str v_nom;
  tel ← en_str v_tel;
  adr ← en_str v_adr;
  cp ← en_str v_cp;
  vil ← en_str v_vil;
  dat ← en_str v_dat;
  cre ← en_float v_cre;
  cou ← en_str v_cou;
  Retour {| idclient := id; nom_client := nom; numero_telephone := tel;
            adresse := adr; code_postal := cp; ville := vil;
            date_naissance := dat; credit_disponible := cre;
            bon_client := bool_de v_bon; couleur_cheveux := cou |}.

(** The line the table holds for [client] under the identifier [id], and
    the record such a line reads back as. *)
Definition ligne_de_client (id : Z) (client : Client) : Database.Ligne :=
  {| Database.c_IDCLIENT := id;
     Database.c_nom_client := nom_client client;
     Database.c_numero_telephone := numero_telephone client;
     Database.c_adresse := adresse client;
     Database.c_code_postal := code_postal client;
     Database.c_ville := ville client;
     Database.c_date_naissance := date_naissance client;
     Database.c_credit_disponible := credit_disponible client;
     Database.c_bon_client := int_de_bool (bon_client client);
     Database.c_couleur_cheveux := couleur_cheveux client |}.

Definition client_de_ligne (l : Database.Ligne) : Client :=
  {| idclient := Some (Database.c_IDCLIENT l);
     nom_client := Database.c_nom_client l;
     numero_telephone := Database.c_numero_telephone l;
     adresse := Database.c_adresse l;
     code_postal := Database.c_code_postal l;
     ville := Database.c_ville l;
     date_naissance := Database.c_date_naissance l;
     credit_disponible := Database.c_credit_disponible l;
     bon_client := negb (Database.c_bon_client l =? 0);
     couleur_cheveux := Database.c_couleur_cheveux l |}.

(** [client] with its identifier replaced. *)
Definition avec_id (id : Z) (client : Client) : Client :=
  {| idclient := Some id;
     nom_client := nom_client client;
     numero_telephone := numero_telephone client;
     adresse := adresse client;
     code_postal := code_postal client;
     ville := ville client;
     date_naissance := date_naissance client;
     credit_disponible := credit_disponible client;
     bon_client := bon_client client;
     couleur_cheveux := couleur_cheveux client |}.

(** ** The data access object [ClientDAO] *)

Import Database.

Definition creer (db : GestionnaireBase) (client : Client)
  : resultat (option Z) * GestionnaireBase :=
  let rows := interroger db SELECT_prochain [] in
  match rows with
  | [] => (Retour None, db)
  | row0 :: _ =>
      match row_get row0 "prochain" ≫= en_int with
      | Leve e => (Leve e, db)
      | Retour prochain_id =>
          let '(curseur, db') :=
            executer db INSERT_client (VInt prochain_id :: en_tuple_insertion client) in
          match curseur with
          | Some _ => (Retour (Some prochain_id), db')
          | None => (Retour None, db')
          end
      end
  end.

Definition lire (db : GestionnaireBase) (idclient : Z) : resultat (option Client) :=
  let rows := interroger db SELECT_par_id [VInt idclient] in
  match rows with
  | row0 :: _ => c ← depuis_row row0; Retour (Some c)
  | [] => Retour None
  end.

(** [curseur is not None]. *)
Definition pas_None {A} (curseur : option A) : bool :=
  match curseur with Some _ => true | None => false end.

Definition modifier (db : GestionnaireBase) (client : Client)
  : bool * GestionnaireBase :=
  let '(curseur, db') := executer db UPDATE_client (en_tuple_modification client) in
  (pas_None curseur, db').

Definition supprimer (db : GestionnaireBase) (idclient : Z)
  : bool * GestionnaireBase :=
  let '(curseur, db') := executer db DELETE_par_id [VInt idclient] in
  (pas_None curseur, db').

Definition supprimer_plusieurs (db : GestionnaireBase) (ids : list Z)
  : bool * GestionnaireBase :=
  match ids with
  | [] => (true, db)
  | _ :: _ =>
      let placeholders := str_join ", " (caracteres (str_fois "?" (length ids))) in
      let requete := DELETE_parmi placeholders in
      let '(curseur, db') := executer db requete (map VInt ids) in
      (pas_None curseur, db')
  end.

Definition rechercher (db : GestionnaireBase) (nom : string) : resultat (list Client) :=
  let rows := interroger db SELECT_par_nom [VText (String.append "%" (String.append nom "%"))] in
  pour_chaque depuis_row rows.

Definition compter (db : GestionnaireBase) : resultat Z :=
  let rows := interroger db SELECT_total [] in
  match rows with
  | row0 :: _ => row_get row0 "total" ≫= en_int
  | [] => Retour 0
  end.

End ClientModel.

Module BaseWindow.

(** ** [FenetreBase]: centring and the image cache *)

(** Python's [str(n)] on an [int], as an f-string prints it. *)
Definition str_de_int (n : Z) : string :=
  DecimalString.NilZero.string_of_int (Z.to_int n).

(** [os.path.join(a, b)] on a POSIX system. *)
Definition os_path_join (a b : string) : string :=
  if String.prefix "/" b then b
  else if String.eqb a "" || String.eqb (String.substring (String.length a - 1)%nat 1%nat a) "/"
       then String.append a b
       else String.append a (String.append "/" b).

(** What the parent widget answers to the four geometry queries: a
    number of pixels, or an exception. *)
Record Widget : Type := {
  winfo_rootx  : resultat Z;
  winfo_rooty  : resultat Z;
  winfo_width  : resultat Z;
  winfo_height : resultat Z
}.

(** A [tk.PhotoImage]: the Tcl image the object stands for.  Two objects
    are the same object exactly when they name the same Tcl image. *)
Record PhotoImage : Type := {
  nom_tcl : nat;        (* pyimage1, pyimage2, ... *)
  octets  : string      (* the file the image was decoded from *)
}.

(** The files on disk, by path, and the formats Tk can decode. *)
Record Disque : Type := {
  fichiers : gmap string string;
  lisible  : string -> bool
}.

(** [os.path.isfile(chemin)]. *)
Definition os_path_isfile (d : Disque) (chemin : string) : bool :=
  match fichiers d !! chemin with Some _ => true | None => false end.

(** The window: the screen size it reports, the geometry it was last
    given, and its cache of images, by file name. *)
Record FenetreBase : Type := {
  winfo_screenwidth  : Z;
  winfo_screenheight : Z;
  geometry           : string;                  (* the last geometry requested *)
  _cache_images      : gmap string PhotoImage
}.

(** What a call to [charger_image] works on: the window, and tkinter's
    count of the images it has named so far ([Image._last_id]). *)
Record Etat : Type := {
  fenetre  : FenetreBase;
  _last_id : nat
}.

(** The body of the [try ... except Exception] of [_centrer]. *)
Definition position (self : FenetreBase) (parent : Widget) (largeur hauteur : Z) : Z * Z :=
  let essai : resultat (Z * Z) :=
    px ← winfo_rootx parent;
    py ← winfo_rooty parent;
    pw ← winfo_width parent;
    ph ← winfo_height parent;
    let x := px + (pw - largeur) / 2 in
    let y := py + (ph - hauteur) / 2 in
    Retour (x, y) in
  match essai with
  | Retour xy => xy
  | Leve _ =>
      let x := (winfo_screenwidth self - largeur) / 2 in
      let y := (winfo_screenheight self - hauteur) / 2 in
      (x, y)
  end.

Definition _centrer (self : FenetreBase) (parent : Widget) (largeur hauteur : Z)
  : FenetreBase :=
  let '(x, y) := position self parent largeur hauteur in
  {| winfo_screenwidth := winfo_screenwidth self;
     winfo_screenheight := winfo_screenheight self;
     geometry :=
       String.concat "" [str_de_int largeur; "x"; str_de_int hauteur;
                         "+"; str_de_int x; "+"; str_de_int y];
     _cache_images := _cache_images self |}.

Section Images.

(** Modelled from the spec: [IMAGES_DIR] of [core/config.py], the one
    configured directory from which icon file names are resolved. *)
Variable IMAGES_DIR : string.

(** [tk.PhotoImage(file=chemin)]: tkinter takes the next image name, then
    asks Tk to create the image, which raises [TclError] on a file it can
    not read. *)
Definition PhotoImage_file (d : Disque) (last_id : nat) (chemin : string)
  : resultat PhotoImage * nat :=
  let name := S last_id in
  match fichiers d !! chemin with
  | Some contenu =>
      if lisible d contenu
      then (Retour {| nom_tcl := name; octets := contenu |}, name)
      else (Leve TclError, name)
  | None => (Leve TclError, name)
  end.

Definition charger_image (d : Disque) (e : Etat) (nom_fichier : string)
    (taille : option (Z * Z)) : resultat (option PhotoImage) * Etat :=
  let self := fenetre e in
  let cle_cache := nom_fichier in
  match _cache_images self !! cle_cache with
  | Some photo => (Retour (Some photo), e)
  | None =>
      let chemin := os_path_join IMAGES_DIR nom_fichier in
      if negb (os_path_isfile d chemin) then (Retour None, e)
      else
        let '(essai, last_id) := PhotoImage_file d (_last_id e) chemin in
        match essai with
        | Retour photo =>
            (Retour (Some photo),
             {| fenetre :=
                  {| winfo_screenwidth := winfo_screenwidth self;
                     winfo_screenheight := winfo_screenheight self;
                     geometry := geometry self;
                     _cache_images := <[cle_cache := photo]> (_cache_images self) |};
                _last_id := last_id |})
        | Leve TclError => (Retour None, {| fenetre := self; _last_id := last_id |})
        | Leve exc => (Leve exc, {| fenetre := self; _last_id := last_id |})
        end
  end.

End Images.

End BaseWindow.

(** ** Notions the statements use *)

Module Notions.
Import Database ClientModel.

(** [t] contains [s]: [s] is a run of consecutive characters of [t]. *)
Definition contient (s t : string) : Prop :=
  ∃ a b, t = String.append a (String.append s b).

(** The same text, character by character, as LIKE compares characters. *)
Fixpoint meme_texte (casse : bool) (s u : list N) : bool :=
  match s, u with
  | [], [] => true
  | c :: s', d :: u' => meme_caractere casse c d && meme_texte casse s' u'
  | _, _ => false
  end.

(** What LIKE accepts, rule by rule: the empty motif accepts the empty
    text; [%] accepts any run of characters, [_] any one character, and any
    other character a character LIKE takes for the same. *)
Inductive accepte (casse : bool) : list N → list N → Prop :=
  | accepte_fin : accepte casse [] []
  | accepte_pour_cent a p t :
      accepte casse p t → accepte casse (pour_cent :: p) (a ++ t)
  | accepte_souligne d p t :
      accepte casse p t → accepte casse (souligne :: p) (d :: t)
  | accepte_caractere c d p t :
      c ≠ pour_cent → c ≠ souligne → meme_caractere casse c d = true →
      accepte casse p t → accepte casse (c :: p) (d :: t).

(** The bytes of a text. *)
Fixpoint octets_de (s : string) : list N :=
  match s with
  | EmptyString => []
  | String a s' => N_of_ascii a :: octets_de s'
  end.

(** No byte of [s] is NUL. *)
Fixpoint sans_nul (s : string) : bool :=
  match s with
  | EmptyString => true
  | String a s' => negb (Ascii.eqb a zero) && sans_nul s'
  end.

(** Every byte of [s] is an ASCII character other than NUL. *)
Fixpoint ascii_pur (s : string) : bool :=
  match s with
  | EmptyString => true
  | String a s' => negb (Ascii.eqb a zero) && (N_of_ascii a <? 0x80)%N && ascii_pur s'
  end.

(** No character of [s] is one of the two wildcards of LIKE. *)
Fixpoint sans_joker (s : string) : bool :=
  match s with
  | EmptyString => true
  | String c s' => negb (Ascii.eqb c "%") && negb (Ascii.eqb c "_") && sans_joker s'
  end.

(** The motif [rechercher] binds: [f"%{nom}%"]. *)
Definition motif_de (nom : string) : string :=
  String.append "%" (String.append nom "%").

(** The search as the specification words it, a substring search: the
    records returned are exactly those of the lines whose name contains
    [s], in ascending order of name. *)
Definition recherche_par_sous_chaine (db : GestionnaireBase) (s : string) : Prop :=
  ∃ retenues,
    rechercher db s = Retour (map client_de_ligne retenues) ∧
    (∀ l, l ∈ retenues ↔ l ∈ clients db ∧ contient s (c_nom_client l)) ∧
    StronglySorted ordre_nom retenues.

End Notions.

(** ** Sample data *)

Module Exemples.
Import Database ClientModel BaseWindow.

Definition ligne (id : Z) (nom : string) : Ligne :=
  {| c_IDCLIENT := id; c_nom_client := nom; c_numero_telephone := "0102030405";
     c_adresse := "1 rue Haute"; c_code_postal := "75001"; c_ville := "Paris";
     c_date_naissance := "1990-01-01"; c_credit_disponible := S754_zero false;
     c_bon_client := 1; c_couleur_cheveux := "brun" |}.

(** A postal code is five digits. *)
Definition cinq_chiffres (l : Ligne) : bool :=
  (String.length (c_code_postal l) =? 5)%nat &&
  forallb (fun c => (("0" <=? c) && (c <=? "9"))%char)
          (list_ascii_of_string (c_code_postal l)).

Definition base (table : list Ligne) : GestionnaireBase :=
  {| connectee := true; casse_like := false; contrainte := cinq_chiffres;
     clients := table; journal := [] |}.

Definition base_fermee (table : list Ligne) : GestionnaireBase :=
  {| connectee := false; casse_like := false; contrainte := cinq_chiffres;
     clients := table; journal := [] |}.

Definition base_casse (table : list Ligne) : GestionnaireBase :=
  {| connectee := true; casse_like := true; contrainte := cinq_chiffres;
     clients := table; journal := [] |}.

Definition trois : list Ligne := [ligne 1 "Durand"; ligne 4 "albert"; ligne 2 "Martin"].

Definition dupont : Client :=
  {| idclient := None; nom_client := "Dupont"; numero_telephone := "0611223344";
     adresse := "2 place Basse"; code_postal := "69002"; ville := "Lyon";
     date_naissance := "1985-07-14";
     credit_disponible := S754_finite false 3 (-1); bon_client := true;
     couleur_cheveux := "roux" |}.

Definition parent_affiche : Widget :=
  {| winfo_rootx := Retour 100; winfo_rooty := Retour 50;
     winfo_width := Retour 301; winfo_height := Retour 200 |}.

Definition parent_detruit : Widget :=
  {| winfo_rootx := Leve TclError; winfo_rooty := Leve TclError;
     winfo_width := Leve TclError; winfo_height := Leve TclError |}.

Definition fenetre_neuve : FenetreBase :=
  {| winfo_screenwidth := 1920; winfo_screenheight := 1080; geometry := "400x300";
     _cache_images := ∅ |}.

Definition etat_neuf : Etat := {| fenetre := fenetre_neuve; _last_id := 0 |}.

(** A JPEG under a PNG name: on disk, and not decodable. *)
Definition disque_jpeg : Disque :=
  {| fichiers := {[ "images/Base_create.png" := "JFIF create" ]};
     lisible := String.prefix "PNG" |}.

Definition disque_vide : Disque :=
  {| fichiers := ∅; lisible := String.prefix "PNG" |}.

Definition disque_icone : Disque :=
  {| fichiers := {[ "images/Base_create.png" := "PNG create" ]};
     lisible := String.prefix "PNG" |}.

(** The state once the icon has been loaded from [disque_icone]. *)
Definition etat_charge : Etat :=
  snd (charger_image "images" disque_icone etat_neuf "Base_create.png" None).

(** The name [a], e-acute, [b]: four bytes, three characters. *)
Definition a_e_aigu_b : string :=
  String "a" (String (ascii_of_N 0xC3) (String (ascii_of_N 0xA9) "b")).

(** The name [a], NUL, [b]. *)
Definition a_nul_b : string := String "a" (String zero "b").

End Exemples.

(** ** Sequences of calls *)

Module Suites.
Import Database ClientModel BaseWindow.

(** The ten columns [Client.depuis_row] reads, in the order it reads
    them. *)
Definition colonnes : list string :=
  [ "IDCLIENT"; "nom_client"; "numero_telephone"; "adresse"; "code_postal";
    "ville"; "date_naissance"; "credit_disponible"; "bon_client";
    "couleur_cheveux" ].

(** [for i in ids: ClientDAO.supprimer(db, i)]: the handle after the
    calls. *)
Definition supprimer_un_par_un (db : GestionnaireBase) (ids : list Z) : GestionnaireBase :=
  fold_left (fun d i => snd (supprimer d i)) ids db.

(** Requests to [charger_image] in turn, each made with the disk as it is
    at that moment; the results are dropped. *)
Definition charger_images (IMAGES_DIR : string) (e : Etat)
    (demandes : list (Disque * string)) : Etat :=
  fold_left (fun e dn => snd (charger_image IMAGES_DIR (fst dn) e (snd dn) None))
            demandes e.

(** The images in the cache were all named by tkinter, and no two names
    of the cache stand for the same image. *)
Definition images_distinctes (e : Etat) : Prop :=
  (∀ cle photo, _cache_images (fenetre e) !! cle = Some photo →
                (nom_tcl photo ≤ _last_id e)%nat) ∧
  (∀ cle cle' photo photo',
     _cache_images (fenetre e) !! cle = Some photo →
     _cache_images (fenetre e) !! cle' = Some photo' →
     nom_tcl photo = nom_tcl photo' → cle = cle').

(** Every image in the cache is the decoding of the file that its name
    designates on the disk [d]. *)
Definition cache_fidele (IMAGES_DIR : string) (d : Disque) (e : Etat) : Prop :=
  ∀ cle photo,
    _cache_images (fenetre e) !! cle = Some photo →
    fichiers d !! os_path_join IMAGES_DIR cle = Some (octets photo) ∧
    lisible d (octets photo) = true.

(** Requests made while the disk stays as it is. *)
Definition sur_disque (d : Disque) (noms : list string) : list (Disque * string) :=
  map (fun nom => (d, nom)) noms.

(** *** Sample data *)

(** The record of Dupont as the line of identifier 4 is to become. *)
Definition dupont_4 : Client := avec_id 4 Exemples.dupont.

Definition disque_deux : Disque :=
  {| fichiers := {[ "images/Base_create.png" := "PNG create";
                    "images/Base_delete.png" := "PNG delete" ]};
     lisible := String.prefix "PNG" |}.

(** A row from which the column [ville] is missing. *)
Definition row_sans_ville : Row :=
  [ ("IDCLIENT", VInt 7); ("nom_client", VText "Leroy");
    ("numero_telephone", VText "0700000000"); ("adresse", VText "3 quai Long");
    ("code_postal", VText "33000"); ("date_naissance", VText "1970-02-03");
    ("credit_disponible", VReal (S754_zero false)); ("bon_client", VInt 0);
    ("couleur_cheveux", VText "blond") ].

End Suites.

(** ** The ttk styles *)

Module Styles.

(** A lookup in one of the constant dictionaries of [core/config.py]
    returns, or raises [KeyError] on the missing key. *)
Inductive issue (A : Type) : Type :=
| Fait (a : A)
| KeyError (cle : string).
Arguments Fait {A} a.
Arguments KeyError {A} cle.

Section Theme.

(** Modelled from the spec: the font descriptors of [core/config.py], of
    which nothing is known here but that [POLICES] holds them. *)
Variable police : Type.

(** Modelled from the spec: [COULEURS] and [POLICES] of [core/config.py],
    the mappings from colour roles to colour values and from font roles to
    font descriptors. *)
Variable COULEURS : gmap string string.
Variable POLICES : gmap string police.

(** The values given to style options. *)
Inductive valeur_tk : Type :=
| Couleur (c : string)
| Police (p : police)
| Entier (n : Z)
| Mot (s : string).

(** [COULEURS[role]] and [POLICES[role]]. *)
Definition couleur (role : string) : issue valeur_tk :=
  match COULEURS !! role with
  | Some c => Fait (Couleur c)
  | None => KeyError role
  end.

Definition fonte (role : string) : issue valeur_tk :=
  match POLICES !! role with
  | Some p => Fait (Police p)
  | None => KeyError role
  end.

(** What [ttk.Style] keeps: the theme in use and, for each theme, style
    and option, the value configured and the values mapped to widget
    states. *)
Record Style : Type := {
  theme       : string;
  options     : gmap (string * string * string) valeur_tk;
  dynamiques  : gmap (string * string * string) (list (string * valeur_tk))
}.

(** The keyword arguments of a call are evaluated from left to right,
    before the call. *)
Fixpoint arguments {A} (kw : list (string * issue A)) : issue (list (string * A)) :=
  match kw with
  | [] => Fait []
  | (opt, Fait v) :: kw' =>
      match arguments kw' with
      | Fait vs => Fait ((opt, v) :: vs)
      | KeyError cle => KeyError cle
      end
  | (_, KeyError cle) :: _ => KeyError cle
  end.

(** The value of a list display [[(etat, COULEURS[role])]]. *)
Definition par_etat (etat : string) (v : issue valeur_tk)
  : issue (list (string * valeur_tk)) :=
  match v with
  | Fait x => Fait [(etat, x)]
  | KeyError cle => KeyError cle
  end.

Definition poser {V} (th nom : string) (vs : list (string * V))
    (m : gmap (string * string * string) V) : gmap (string * string * string) V :=
  fold_left (fun m ov => <[(th, nom, fst ov) := snd ov]> m) vs m.

(** [style.theme_use(nom)]. *)
Definition theme_use (nom : string) (st : Style) : issue unit * Style :=
  (Fait tt, {| theme := nom; options := options st; dynamiques := dynamiques st |}).

(** [style.configure(nom, **kw)]: the options given are set for the style
    in the theme in use, the others are kept. *)
Definition configure (nom : string) (kw : list (string * issue valeur_tk)) (st : Style)
  : issue unit * Style :=
  match arguments kw with
  | Fait vs =>
      (Fait tt, {| theme := theme st;
                   options := poser (theme st) nom vs (options st);
                   dynamiques := dynamiques st |})
  | KeyError cle => (KeyError cle, st)
  end.

(** [style.map(nom, **kw)]. *)
Definition map_ (nom : string) (kw : list (string * issue (list (string * valeur_tk))))
    (st : Style) : issue unit * Style :=
  match arguments kw with
  | Fait vs =>
      (Fait tt, {| theme := theme st;
                   options := options st;
                   dynamiques := poser (theme st) nom vs (dynamiques st) |})
  | KeyError cle => (KeyError cle, st)
  end.

(** Statements in sequence: the first exception ends the run. *)
Fixpoint a_la_suite (instructions : list (Style -> issue unit * Style)) (st : Style)
  : issue unit * Style :=
  match instructions with
  | [] => (Fait tt, st)
  | i :: suite =>
      match i st with
      | (Fait _, st') => a_la_suite suite st'
      | (KeyError cle, st') => (KeyError cle, st')
      end
  end.

Definition appliquer_style_ttk (style : Style) : issue unit * Style :=
  a_la_suite
    [ theme_use "clam";
      configure "Treeview"
        [ ("background", couleur "fond_secondaire");
          ("foreground", couleur "texte_principal");
          ("fieldbackground", couleur "fond_secondaire");
          ("font", fonte "normale");
          ("rowheight", Fait (Entier 26)) ];
      configure "Treeview.Heading"
        [ ("background", couleur "entete_tableau");
          ("foreground", couleur "texte_clair");
          ("font", fonte "sous_titre");
          ("relief", Fait (Mot "flat")) ];
      map_ "Treeview"
        [ ("background", par_etat "selected" (couleur "selection"));
          ("foreground", par_etat "selected" (couleur "texte_principal")) ];
      configure "TButton"
        [ ("background", couleur "fond_bouton");
          ("foreground", couleur "texte_clair");
          ("font", fonte "normale");
          ("padding", Fait (Entier 6));
          ("relief", Fait (Mot "flat")) ];
      map_ "TButton"
        [ ("background", par_etat "active" (couleur "fond_bouton_hover")) ];
      configure "TEntry"
        [ ("fieldbackground", couleur "fond_secondaire");
          ("foreground", couleur "texte_principal");
          ("font", fonte "normale") ];
      configure "TCombobox"
        [ ("fieldbackground", couleur "fond_secondaire");
          ("foreground", couleur "texte_principal");
          ("font", fonte "normale") ];
      configure "TFrame"
        [ ("background", couleur "fond_principal") ];
      configure "TLabelframe"
        [ ("background", couleur "fond_principal");
          ("foreground", couleur "texte_principal");
          ("font", fonte "sous_titre") ];
      configure "TLabelframe.Label"
        [ ("background", couleur "fond_principal");
          ("foreground", couleur "texte_principal");
          ("font", fonte "sous_titre") ];
      configure "TLabel"
        [ ("background", couleur "fond_principal");
          ("foreground", couleur "texte_principal");
          ("font", fonte "normale") ];
      configure "TScrollbar"
        [ ("background", couleur "fond_principal");
          ("troughcolor", couleur "bordure");
          ("relief", Fait (Mot "flat")) ] ]
    style.

End Theme.

Arguments theme {police} _.
Arguments options {police} _.
Arguments dynamiques {police} _.

(** The colour roles and the font roles [appliquer_style_ttk] reads, in
    the order it first reads them. *)
Definition roles_couleurs : list string :=
  [ "fond_secondaire"; "texte_principal"; "entete_tableau"; "texte_clair";
    "selection"; "fond_bouton"; "fond_bouton_hover"; "fond_principal"; "bordure" ].

Definition roles_polices : list string := [ "normale"; "sous_titre" ].

(** *** Sample data *)

Definition couleurs_completes : gmap string string :=
  list_to_map (map (fun r => (r, String.append "#" r)) roles_couleurs).

Definition couleurs_sans_selection : gmap string string :=
  delete "selection" couleurs_completes.

Definition polices_completes : gmap string (string * Z) :=
  {[ "normale" := ("Segoe UI", 10); "sous_titre" := ("Segoe UI", 11) ]}.

Definition style_initial : Style (string * Z) :=
  {| theme := "default"; options := ∅; dynamiques := ∅ |}.

End Styles.

(** * Properties *)

Import Database ClientModel BaseWindow Notions.

(** ** Rows and records *)

Lemma depuis_row_de_ligne (l : Ligne) :
  depuis_row (row_de_ligne l) = Retour (client_de_ligne l).
Proof. destruct l; reflexivity. Qed.

Lemma client_de_ligne_de_client (id : Z) (client : Client) :
  client_de_ligne (ligne_de_client id client) = avec_id id client.
Proof. destruct client as [? ? ? ? ? ? ? ? [] ?]; reflexivity. Qed.

Lemma lier_champs_insertion (client : Client) :
  credit_disponible client ≠ S754_nan →
  lier_champs (en_tuple_insertion client) = Some (fun id => ligne_de_client id client).
Proof. destruct client as [? ? ? ? ? ? ? [] ? ?]; simpl; intros H; done. Qed.

Lemma lier_champs_nan (client : Client) :
  credit_disponible client = S754_nan →
  lier_champs (en_tuple_insertion client) = None.
Proof. destruct client; simpl; intros ->; done. Qed.

(** ** The aggregate [MAX] *)

Lemma fold_max_borne (l : list Z) (x : Z) :
  x ≤ fold_left Z.max l x ∧ ∀ i, i ∈ l → i ≤ fold_left Z.max l x.
Proof.
  revert x; induction l as [|a l IH]; intros x; simpl.
  - split; [lia|]. intros i Hi. inversion Hi.
  - destruct (IH (Z.max x a)) as [H1 H2]. split; [lia|].
    intros i Hi. apply elem_of_cons in Hi as [->|Hi]; [lia|auto].
Qed.

Lemma fold_max_atteint (l : list Z) (x : Z) :
  fold_left Z.max l x = x ∨ fold_left Z.max l x ∈ l.
Proof.
  revert x; induction l as [|a l IH]; intros x; simpl; [by left|].
  destruct (IH (Z.max x a)) as [H|H].
  - rewrite H. destruct (Z.max_spec x a) as [[_ ->]|[_ ->]]; [right; left|by left].
  - right. by right.
Qed.

Lemma sql_max_spec (col : list Z) (m : Z) :
  sql_max col = Some m → m ∈ col ∧ ∀ i, i ∈ col → i ≤ m.
Proof.
  destruct col as [|x col]; simpl; [done|]. intros [= <-].
  destruct (fold_max_borne col x) as [H1 H2]. split.
  - destruct (fold_max_atteint col x) as [->|H]; [left|by right].
  - intros i Hi. apply elem_of_cons in Hi as [->|Hi]; auto.
Qed.

Lemma sql_max_non_vide (col : list Z) : col ≠ [] → ∃ m, sql_max col = Some m.
Proof. destruct col; [done|]. intros _. eexists; reflexivity. Qed.

(** ** Creation *)

(** The identifier the allocation query computes on the table of [db]. *)
Lemma interroger_prochain (db : GestionnaireBase) :
  connectee db = true →
  interroger db SELECT_prochain [] =
    [[("prochain", VInt (coalesce (sql_max (map c_IDCLIENT (clients db))) 0 + 1))]].
Proof. intros H. unfold interroger. rewrite H. reflexivity. Qed.

Lemma interroger_deconnectee (db : GestionnaireBase) req params :
  connectee db = false → interroger db req params = [].
Proof. intros H. unfold interroger. by rewrite H. Qed.

Lemma interroger_prochain_vide (db : GestionnaireBase) :
  interroger db SELECT_prochain [] = [] → connectee db = false.
Proof.
  destruct (connectee db) eqn:H; [|done].
  rewrite interroger_prochain by done. discriminate.
Qed.

Lemma prochain_frais (table : list Ligne) :
  existsb (cle_egale (Some (coalesce (sql_max (map c_IDCLIENT table)) 0 + 1))) table = false.
Proof.
  apply not_true_is_false. intros H. apply existsb_exists in H as (l & Hl & Heq).
  simpl in Heq. apply Z.eqb_eq in Heq.
  destruct (sql_max (map c_IDCLIENT table)) as [m|] eqn:Hm.
  - apply sql_max_spec in Hm as [_ Hm]. simpl in Heq.
    assert (c_IDCLIENT l ≤ m); [|lia].
    apply Hm. apply list_elem_of_fmap. exists l. split; [done|]. by apply list_elem_of_In.
  - destruct table; [inversion Hl|discriminate].
Qed.

Lemma lecture_prochain (x : Z) :
  row_get [("prochain", VInt x)] "prochain" ≫= en_int = Retour x.
Proof. reflexivity. Qed.

(** [creer] on a usable connection, case by case. *)
Lemma creer_connectee (db : GestionnaireBase) (client : Client) :
  connectee db = true →
  let n := coalesce (sql_max (map c_IDCLIENT (clients db))) 0 + 1 in
  let params := VInt n :: en_tuple_insertion client in
  creer db client =
    match credit_disponible client with
    | S754_nan => (Retour None, noter db INSERT_client params (clients db))
    | _ =>
        if contrainte db (ligne_de_client n client)
        then (Retour (Some n),
              noter db INSERT_client params (clients db ++ [ligne_de_client n client]))
        else (Retour None, noter db INSERT_client params (clients db))
    end.
Proof.
  intros Hc n params. unfold creer. rewrite interroger_prochain by done.
  rewrite lecture_prochain. fold n. fold params.
  unfold executer. rewrite Hc. unfold evaluer, params.
  assert (credit_disponible client = S754_nan ∨ credit_disponible client ≠ S754_nan)
    as [Hn|Hn] by (destruct (credit_disponible client); auto).
  - rewrite (lier_champs_nan _ Hn), Hn. reflexivity.
  - rewrite (lier_champs_insertion _ Hn). unfold n at 1. rewrite prochain_frais.
    fold n. destruct (contrainte db (ligne_de_client n client));
      destruct (credit_disponible client); done.
Qed.

Lemma filtre_aucun {A} (f : A → bool) (l : list A) :
  existsb f l = false → filter (λ x, f x) l = [].
Proof.
  induction l as [|a l IH]; [done|]. cbn [existsb]. intros H.
  apply orb_false_iff in H as [H1 H2].
  rewrite filter_cons_False by (rewrite H1; auto). auto.
Qed.

(** C1. [creer] gives the new line the identifier [n], which is 1 on an
    empty table and the largest identifier present plus one otherwise; a
    successful call returns exactly [n], having added the line under that
    identifier; and the call succeeds whenever the connection is usable
    and the table admits the line. *)
Theorem creer_identifiant (db : GestionnaireBase) (client : Client) :
  ∃ n : Z,
    (clients db = [] → n = 1) ∧
    (clients db ≠ [] →
       ∃ m, m ∈ map c_IDCLIENT (clients db) ∧
            (∀ i, i ∈ map c_IDCLIENT (clients db) → i ≤ m) ∧ n = m + 1) ∧
    (∀ r db', creer db client = (Retour (Some r), db') →
       r = n ∧ clients db' = clients db ++ [ligne_de_client n client]) ∧
    (connectee db = true → credit_disponible client ≠ S754_nan →
       contrainte db (ligne_de_client n client) = true →
       fst (creer db client) = Retour (Some n)).
Proof.
  exists (coalesce (sql_max (map c_IDCLIENT (clients db))) 0 + 1).
  split; [|split; [|split]].
  - intros ->. reflexivity.
  - intros Hne. destruct (sql_max_non_vide (map c_IDCLIENT (clients db))) as [m Hm].
    { destruct (clients db); done. }
    exists m. rewrite Hm. apply sql_max_spec in Hm as [H1 H2]. auto.
  - intros r db' H. destruct (connectee db) eqn:Hc.
    + rewrite creer_connectee in H by done.
      cbv zeta in H. repeat case_match; inversion H; subst; auto.
    + unfold creer in H. rewrite interroger_deconnectee in H by done. discriminate.
  - intros Hc Hn Hk. rewrite creer_connectee by done. rewrite Hk.
    destruct (credit_disponible client); done.
Qed.

Lemma creer_identifiant_temoin :
  fst (creer (Exemples.base Exemples.trois) Exemples.dupont) = Retour (Some 5).
Proof.
  destruct (creer_identifiant (Exemples.base Exemples.trois) Exemples.dupont)
    as (n & _ & _ & H & Hp).
  destruct (H 5 (snd (creer (Exemples.base Exemples.trois) Exemples.dupont)) eq_refl)
    as [Hn _].
  rewrite Hn. apply Hp; [reflexivity|discriminate|]. rewrite <- Hn. reflexivity.
Defined.

(** C9. When the identifier query gives no row, [creer] returns [None] and
    hands the database back as it was: no line is added and no statement
    reaches [executer]. *)
Theorem creer_sans_prochain (db : GestionnaireBase) (client : Client) :
  interroger db SELECT_prochain [] = [] →
  creer db client = (Retour None, db).
Proof. intros H. unfold creer. rewrite H. reflexivity. Qed.

Lemma creer_sans_prochain_temoin :
  creer (Exemples.base_fermee Exemples.trois) Exemples.dupont
  = (Retour None, Exemples.base_fermee Exemples.trois).
Proof. apply creer_sans_prochain. reflexivity. Defined.

(** ** Reading back *)

Lemma lire_ligne_fraiche (db : GestionnaireBase) req params (n : Z) (client : Client) :
  connectee db = true →
  existsb (cle_egale (Some n)) (clients db) = false →
  lire (noter db req params (clients db ++ [ligne_de_client n client])) n
  = Retour (Some (avec_id n client)).
Proof.
  intros Hc Hf. unfold lire, interroger. cbn [connectee noter]. rewrite Hc.
  cbn [evaluer lier_cle clients noter lecture lignes_rendues].
  rewrite filter_app, (filtre_aucun _ _ Hf).
  rewrite filter_cons_True by (cbn; rewrite Z.eqb_refl; exact I).
  rewrite filter_nil. cbn [app map].
  rewrite depuis_row_de_ligne, client_de_ligne_de_client. reflexivity.
Qed.

Lemma lire_apres_creer (db db' : GestionnaireBase) (client : Client) (n : Z) :
  creer db client = (Retour (Some n), db') →
  lire db' n = Retour (Some (avec_id n client)).
Proof.
  intros H. destruct (connectee db) eqn:Hc.
  - rewrite creer_connectee in H by done. cbv zeta in H.
    repeat case_match; inversion H; subst;
      apply lire_ligne_fraiche; auto using prochain_frais.
  - unfold creer in H. rewrite interroger_deconnectee in H by done. discriminate.
Qed.

(** C2. Whenever [creer] gives a record an identifier, [lire] of that
    identifier returns the same record, with that identifier in place of
    its own: every other field is as it was.  And [creer] does give an
    identifier to every record whose credit is a number and which the table
    admits, on a usable connection. *)
Theorem creer_puis_lire (db : GestionnaireBase) (R : Client) :
  (∀ n db', creer db R = (Retour (Some n), db') →
            lire db' n = Retour (Some (avec_id n R))) ∧
  (connectee db = true →
   credit_disponible R ≠ S754_nan →
   (∀ id, contrainte db (ligne_de_client id R) = true) →
   ∃ n db', creer db R = (Retour (Some n), db') ∧
            lire db' n = Retour (Some (avec_id n R))).
Proof.
  split; [intros n db'; apply lire_apres_creer|].
  intros Hc Hn Hk.
  exists (coalesce (sql_max (map c_IDCLIENT (clients db))) 0 + 1). eexists. split.
  - rewrite creer_connectee by done. cbv zeta. rewrite Hk.
    destruct (credit_disponible R); done.
  - apply lire_ligne_fraiche; auto using prochain_frais.
Qed.

Lemma creer_puis_lire_temoin :
  ∃ n db', creer (Exemples.base Exemples.trois) Exemples.dupont = (Retour (Some n), db') ∧
           lire db' n = Retour (Some (avec_id n Exemples.dupont)).
Proof.
  apply (proj2 (creer_puis_lire (Exemples.base Exemples.trois) Exemples.dupont));
    [reflexivity|discriminate|reflexivity].
Defined.

(** Identifiers stay unique under [creer]. *)
Lemma creer_identifiants_uniques (db : GestionnaireBase) (client : Client) :
  NoDup (map c_IDCLIENT (clients db)) →
  NoDup (map c_IDCLIENT (clients (snd (creer db client)))).
Proof.
  intros Hnd. destruct (connectee db) eqn:Hc.
  - rewrite creer_connectee by done. cbv zeta.
    repeat case_match; cbn [snd clients noter]; try done.
    all: rewrite map_app; apply NoDup_app; split; [done|]; split;
      [|apply NoDup_singleton].
    all: intros i Hi Hi'; apply list_elem_of_singleton in Hi'; cbn in Hi'; subst i.
    all: apply list_elem_of_fmap in Hi as (l & Hl & Hin).
    all: pose proof (prochain_frais (clients db)) as Hf.
    all: apply not_true_iff_false in Hf; apply Hf, existsb_exists.
    all: exists l; split; [by apply list_elem_of_In|].
    all: cbn; rewrite <- Hl; apply Z.eqb_refl.
  - unfold creer. rewrite interroger_deconnectee by done. done.
Qed.

(** ** Update *)

Lemma lier_cle_id (i : option Z) : lier_cle (valeur_de_id i) = Some i.
Proof. by destruct i. Qed.

Lemma cle_sans_cible (cle : option Z) (table : list Ligne) :
  (∀ l, l ∈ table → Some (c_IDCLIENT l) ≠ cle) →
  existsb (cle_egale cle) table = false.
Proof.
  intros H. apply not_true_is_false. intros Hex.
  apply existsb_exists in Hex as (l & Hl & Heq).
  apply list_elem_of_In in Hl. destruct cle as [i|]; [|done].
  simpl in Heq. apply Z.eqb_eq in Heq. apply (H l Hl). by rewrite Heq.
Qed.

Lemma evaluer_update_sans_cible (db : GestionnaireBase) (client : Client) :
  existsb (cle_egale (idclient client)) (clients db) = false →
  evaluer db UPDATE_client (en_tuple_modification client) = ecriture (clients db) 0.
Proof.
  intros H. unfold en_tuple_modification. cbn [evaluer].
  rewrite lier_cle_id, (filtre_aucun _ _ H). reflexivity.
Qed.

(** C4. [modifier] answers [True] exactly when [executer] handed back a
    cursor.  For a record whose identifier is that of no line, the table is
    left as it was, and on a usable connection the statement runs, touches
    no line, and [modifier] answers [True]. *)
Theorem modifier_sans_cible (db : GestionnaireBase) (client : Client) :
  (fst (modifier db client) = true ↔
     ∃ curseur,
       fst (executer db UPDATE_client (en_tuple_modification client)) = Some curseur) ∧
  ((∀ l, l ∈ clients db → Some (c_IDCLIENT l) ≠ idclient client) →
     clients (snd (modifier db client)) = clients db ∧
     (connectee db = true →
        fst (executer db UPDATE_client (en_tuple_modification client))
          = Some {| rowcount := 0 |} ∧
        fst (modifier db client) = true)).
Proof.
  split.
  - unfold modifier.
    destruct (executer db UPDATE_client (en_tuple_modification client)) as [[c|] db'];
      simpl.
    + split; eauto.
    + split; [done|]. intros [c Hc]. done.
  - intros H. apply cle_sans_cible in H.
    unfold modifier, executer. rewrite (evaluer_update_sans_cible _ _ H).
    destruct (connectee db); simpl; split; auto; done.
Qed.

Lemma modifier_sans_cible_temoin :
  clients (snd (modifier (Exemples.base Exemples.trois) Exemples.dupont))
    = Exemples.trois ∧
  fst (modifier (Exemples.base Exemples.trois) Exemples.dupont) = true.
Proof.
  destruct (modifier_sans_cible (Exemples.base Exemples.trois) Exemples.dupont)
    as [_ H].
  destruct H as [H1 H2].
  - intros l Hl. simpl. discriminate.
  - split; [exact H1|]. apply H2. reflexivity.
Defined.

(** ** Deletion *)

Lemma filtre_filtre_contraire {A} (f : A → bool) (l : list A) :
  filter (λ x, f x) (filter (λ x, negb (f x)) l) = [].
Proof.
  apply filtre_aucun. apply not_true_is_false. intros H.
  apply existsb_exists in H as (x & Hx & Hf).
  apply list_elem_of_In, list_elem_of_filter in Hx as [Hn _].
  rewrite Hf in Hn. done.
Qed.

(** C6. Whatever the table and the identifier, [lire] after [supprimer] of
    the same identifier returns [None]. *)
Theorem supprimer_puis_lire (db : GestionnaireBase) (i : Z) :
  lire (snd (supprimer db i)) i = Retour None.
Proof.
  unfold supprimer, executer, lire, interroger. destruct (connectee db) eqn:Hc.
  - cbn [evaluer lier_cle ecriture snd connectee noter]. rewrite Hc.
    cbn [evaluer lier_cle clients noter table_apres lecture lignes_rendues].
    rewrite (filtre_filtre_contraire (cle_egale (Some i))). reflexivity.
  - cbn [snd connectee noter]. rewrite Hc. reflexivity.
Qed.

(** On a usable connection the deletion itself succeeds and removes the
    lines of that identifier, and only them. *)
Lemma supprimer_connectee (db : GestionnaireBase) (i : Z) :
  connectee db = true →
  fst (supprimer db i) = true ∧
  clients (snd (supprimer db i)) = filter (λ l, c_IDCLIENT l ≠ i) (clients db).
Proof.
  intros Hc. unfold supprimer, executer. rewrite Hc. cbn. split; [done|].
  apply list_filter_iff. intros l. rewrite negb_True, Is_true_true, Z.eqb_eq. done.
Qed.

(** ** Batch deletion *)

Lemma caracteres_fois (n : nat) : caracteres (str_fois "?" n) = replicate n "?".
Proof.
  induction n as [|n IH]; [done|].
  change (str_fois "?" (S n)) with (String "?" (str_fois "?" n)).
  cbn [caracteres replicate]. by rewrite IH.
Qed.

Lemma nombre_marques_append (s t : string) :
  nombre_marques (String.append s t) = (nombre_marques s + nombre_marques t)%nat.
Proof. induction s as [|c s IH]; [done|]. simpl. rewrite IH. lia. Qed.

Lemma nombre_marques_join (n : nat) :
  nombre_marques (str_join ", " (replicate n "?")) = n.
Proof.
  unfold str_join. induction n as [|n IH]; [done|].
  destruct n as [|n]; [done|].
  change (String.concat ", " (replicate (S (S n)) "?"))
    with (String.append "?"
            (String.append ", " (String.concat ", " (replicate (S n) "?")))).
  rewrite !nombre_marques_append, IH. reflexivity.
Qed.

Lemma lier_cles_entiers (ids : list Z) : lier_cles (map VInt ids) = Some (map Some ids).
Proof. induction ids as [|i ids IH]; [done|]. simpl. by rewrite IH. Qed.

Lemma cle_parmi_entiers (ids : list Z) (l : Ligne) :
  cle_parmi (map Some ids) l = true ↔ c_IDCLIENT l ∈ ids.
Proof.
  unfold cle_parmi. rewrite existsb_exists. split.
  - intros (cle & Hin & Heq). apply in_map_iff in Hin as (i & <- & Hi).
    simpl in Heq. apply Z.eqb_eq in Heq. rewrite Heq. by apply list_elem_of_In.
  - intros Hi. exists (Some (c_IDCLIENT l)). split.
    + apply in_map. by apply list_elem_of_In.
    + simpl. apply Z.eqb_refl.
Qed.

Lemma supprimer_plusieurs_non_vide (db : GestionnaireBase) (ids : list Z) :
  ids ≠ [] →
  supprimer_plusieurs db ids =
    (pas_None (fst (executer db (DELETE_parmi (str_join ", " (replicate (length ids) "?")))
                             (map VInt ids))),
     snd (executer db (DELETE_parmi (str_join ", " (replicate (length ids) "?")))
                   (map VInt ids))).
Proof.
  destruct ids as [|i ids]; [done|]. intros _.
  unfold supprimer_plusieurs. rewrite caracteres_fois.
  by destruct (executer _ _ _).
Qed.

Lemma evaluer_delete_parmi (db : GestionnaireBase) (ids : list Z) :
  evaluer db (DELETE_parmi (str_join ", " (replicate (length ids) "?"))) (map VInt ids)
  = ecriture (filter (λ l, negb (cle_parmi (map Some ids) l)) (clients db))
             (length (filter (λ l, cle_parmi (map Some ids) l) (clients db))).
Proof.
  cbn [evaluer]. rewrite nombre_marques_join, length_map, Nat.eqb_refl.
  by rewrite lier_cles_entiers.
Qed.

(** C5. On the empty list [supprimer_plusieurs] returns [True] and hands
    the database back as it was.  On a non-empty list it sends one DELETE
    whose placeholder text is one [?] per identifier, separated by commas,
    with the identifiers as parameters; on a usable connection it answers
    [True] and the table keeps exactly the lines whose identifier is not in
    the list, each of them unchanged and in place. *)
Theorem supprimer_plusieurs_effet (db : GestionnaireBase) (ids : list Z) :
  supprimer_plusieurs db [] = (true, db) ∧
  (ids ≠ [] →
     let placeholders := str_join ", " (replicate (length ids) "?") in
     nombre_marques placeholders = length ids ∧
     journal (snd (supprimer_plusieurs db ids))
       = journal db ++ [(DELETE_parmi placeholders, map VInt ids)] ∧
     (connectee db = true →
        fst (supprimer_plusieurs db ids) = true ∧
        clients (snd (supprimer_plusieurs db ids))
          = filter (λ l, c_IDCLIENT l ∉ ids) (clients db))).
Proof.
  split; [reflexivity|]. intros Hne. cbv zeta.
  split; [apply nombre_marques_join|].
  rewrite supprimer_plusieurs_non_vide by done.
  unfold executer. rewrite evaluer_delete_parmi.
  destruct (connectee db); cbn; (split; [done|]); [|done].
  intros _. split; [done|].
  apply list_filter_iff. intros l.
  rewrite negb_True, Is_true_true, cle_parmi_entiers. done.
Qed.

Lemma supprimer_plusieurs_effet_temoin :
  fst (supprimer_plusieurs (Exemples.base Exemples.trois) [1; 2]) = true ∧
  clients (snd (supprimer_plusieurs (Exemples.base Exemples.trois) [1; 2]))
    = [Exemples.ligne 4 "albert"].
Proof.
  destruct (supprimer_plusieurs_effet (Exemples.base Exemples.trois) [1; 2])
    as [_ H].
  destruct H as (_ & _ & H); [discriminate|].
  destruct H as [H1 H2]; [reflexivity|].
  split; [exact H1|]. rewrite H2. reflexivity.
Defined.

(** ** Search *)

(** *** The order of names *)

Lemma ascii_compare_refl (c : ascii) : Ascii.compare c c = Eq.
Proof. unfold Ascii.compare. apply N.compare_refl. Qed.

Lemma ascii_compare_lt_trans (a b c : ascii) :
  Ascii.compare a b = Lt → Ascii.compare b c = Lt → Ascii.compare a c = Lt.
Proof.
  unfold Ascii.compare. rewrite !N.compare_lt_iff. apply N.lt_trans.
Qed.

Lemma string_compare_lt_trans (s1 s2 s3 : string) :
  String.compare s1 s2 = Lt → String.compare s2 s3 = Lt → String.compare s1 s3 = Lt.
Proof.
  revert s2 s3. induction s1 as [|c1 s1 IH]; intros [|c2 s2] [|c3 s3]; simpl; try done.
  destruct (Ascii.compare c1 c2) eqn:H12; try done;
    destruct (Ascii.compare c2 c3) eqn:H23; try done.
  - apply Ascii.compare_eq_iff in H12, H23. subst.
    rewrite ascii_compare_refl. apply IH.
  - apply Ascii.compare_eq_iff in H12. subst. by rewrite H23.
  - apply Ascii.compare_eq_iff in H23. subst. by rewrite H12.
  - by rewrite (ascii_compare_lt_trans _ _ _ H12 H23).
Qed.

Lemma string_leb_cas (s1 s2 : string) :
  String.leb s1 s2 = true ↔ String.compare s1 s2 = Lt ∨ s1 = s2.
Proof.
  unfold String.leb. split.
  - destruct (String.compare s1 s2) eqn:H; try done; auto.
    right. by apply String.compare_eq_iff.
  - intros [->| ->]; [done|].
    assert (String.compare s2 s2 = Eq) as ->; [|done].
    induction s2 as [|c s IH]; [done|]. simpl. by rewrite ascii_compare_refl.
Qed.

#[global] Instance ordre_nom_trans : Transitive ordre_nom.
Proof.
  intros a b c. unfold ordre_nom. rewrite !string_leb_cas.
  intros [H1|H1] [H2|H2].
  - left. eapply string_compare_lt_trans; eauto.
  - left. by rewrite <- H2.
  - left. by rewrite H1.
  - right. congruence.
Qed.

#[global] Instance ordre_nom_total : Total ordre_nom.
Proof. intros a b. unfold ordre_nom. apply String.leb_total. Qed.

(** *** The LIKE operator *)

Lemma like_car_etoile_vide (casse : bool) (p : list N) :
  like_car casse (pour_cent :: p) [] = like_car casse p [].
Proof. cbn. apply orb_false_r. Qed.

Lemma like_car_etoile_cons (casse : bool) (p : list N) (d : N) (t : list N) :
  like_car casse (pour_cent :: p) (d :: t)
  = like_car casse p (d :: t) || like_car casse (pour_cent :: p) t.
Proof. reflexivity. Qed.

(** [%] followed by [p] matches [t] when [p] matches some end of [t]. *)
Lemma like_car_etoile (casse : bool) (p t : list N) :
  like_car casse (pour_cent :: p) t = true ↔
  ∃ a b, t = a ++ b ∧ like_car casse p b = true.
Proof.
  induction t as [|d t IH].
  - rewrite like_car_etoile_vide. split.
    + intros H. by exists [], [].
    + intros (a & b & Hab & H). destruct a, b; try done.
  - rewrite like_car_etoile_cons, orb_true_iff, IH. split.
    + intros [H|(a & b & -> & H)].
      * by exists [], (d :: t).
      * by exists (d :: a), b.
    + intros (a & b & Hab & H). destruct a as [|c a].
      * left. simpl in Hab. by rewrite Hab.
      * right. simpl in Hab. injection Hab as -> ->. by exists a, b.
Qed.

Lemma like_car_joker_final (casse : bool) (t : list N) :
  like_car casse [pour_cent] t = true.
Proof. apply like_car_etoile. exists t, []. split; [by rewrite app_nil_r|done]. Qed.

Lemma like_car_caractere (casse : bool) (c : N) (p t : list N) :
  c ≠ pour_cent → c ≠ souligne →
  like_car casse (c :: p) t =
    match t with
    | [] => false
    | d :: t' => meme_caractere casse c d && like_car casse p t'
    end.
Proof.
  intros H1 H2. apply N.eqb_neq in H1, H2.
  destruct t; cbn [like_car]; rewrite H1; [done|]. by rewrite H2.
Qed.

(** The matcher accepts what the rules of LIKE accept. *)
Lemma like_car_accepte (casse : bool) (p t : list N) :
  like_car casse p t = true ↔ accepte casse p t.
Proof.
  split.
  - revert t. induction p as [|c p IH]; intros t H.
    + destruct t; [constructor|done].
    + destruct (decide (c = pour_cent)) as [->|H1].
      { apply like_car_etoile in H as (a & b & -> & H). constructor. by apply IH. }
      destruct (decide (c = souligne)) as [->|H2].
      { destruct t as [|d t]; [done|]. cbn in H. constructor. by apply IH. }
      rewrite like_car_caractere in H by done.
      destruct t as [|d t]; [done|]. apply andb_true_iff in H as [Hd H].
      constructor; auto.
  - induction 1 as [|a p t _ IH|d p t _ IH|c d p t H1 H2 Hd _ IH].
    + done.
    + apply like_car_etoile. eauto.
    + cbn. exact IH.
    + rewrite like_car_caractere by done. by rewrite Hd, IH.
Qed.

(** A text without wildcard, followed by [%], matches the texts that
    begin with it. *)
Lemma like_car_prefixe (casse : bool) (s t : list N) :
  Forall (λ c, c ≠ pour_cent ∧ c ≠ souligne) s →
  like_car casse (s ++ [pour_cent]) t = true ↔
  ∃ u b, t = u ++ b ∧ meme_texte casse s u = true.
Proof.
  revert t. induction s as [|c s IH]; intros t Hs.
  - change ([] ++ [pour_cent]) with [pour_cent]. rewrite like_car_joker_final.
    split; [|done]. intros _. by exists [], t.
  - apply Forall_cons in Hs as [[H1 H2] Hs].
    change ((c :: s) ++ [pour_cent]) with (c :: (s ++ [pour_cent])).
    rewrite like_car_caractere by done.
    destruct t as [|d t].
    + split; [done|]. intros (u & b & Hub & H). destruct u; done.
    + rewrite andb_true_iff, IH by done. split.
      * intros (Hd & u & b & -> & H). exists (d :: u), b.
        split; [done|]. cbn [meme_texte]. by rewrite Hd, H.
      * intros (u & b & Hub & H). destruct u as [|d' u]; [done|].
        simpl in Hub. injection Hub as -> ->. cbn [meme_texte] in H.
        apply andb_true_iff in H as [? ?]. eauto.
Qed.

(** Between two [%], a text without wildcard matches the texts with a run
    of characters that reads as that text. *)
Lemma like_car_motif (casse : bool) (s t : list N) :
  Forall (λ c, c ≠ pour_cent ∧ c ≠ souligne) s →
  like_car casse (pour_cent :: s ++ [pour_cent]) t = true ↔
  ∃ a u b, t = a ++ u ++ b ∧ meme_texte casse s u = true.
Proof.
  intros Hs. rewrite like_car_etoile. split.
  - intros (a & r & -> & H). apply like_car_prefixe in H as (u & b & -> & H); eauto.
  - intros (a & u & b & -> & H). exists a, (u ++ b). split; [done|].
    apply like_car_prefixe; eauto.
Qed.

Lemma meme_texte_sensible (s u : list N) : meme_texte true s u = true ↔ s = u.
Proof.
  revert u. induction s as [|c s IH]; intros [|d u]; cbn [meme_texte]; try done.
  unfold meme_caractere. cbn [negb andb].
  rewrite orb_false_r, andb_true_iff, IH, N.eqb_eq.
  split; [intros [-> ->]|intros [= -> ->]]; done.
Qed.

(** *** Reading the characters of a text *)

Lemma avant_nul_sans_nul (s : string) : sans_nul s = true → avant_nul s = s.
Proof.
  induction s as [|a s IH]; [done|]. cbn [sans_nul avant_nul].
  intros [Ha Hs]%andb_true_iff. apply negb_true_iff in Ha. rewrite Ha. by rewrite IH.
Qed.

Lemma sans_nul_motif (s : string) : sans_nul s = true → sans_nul (motif_de s) = true.
Proof.
  intros Hs. change (motif_de s) with (String "%" (String.append s "%")).
  cbn [sans_nul]. change (sans_nul (String.append s "%") = true).
  induction s as [|a s IH]; [done|].
  change (String.append (String a s) "%") with (String a (String.append s "%")).
  cbn [sans_nul] in *. apply andb_true_iff in Hs as [-> Hs]. by apply IH.
Qed.

Lemma lire_utf8_pour_cent (s : string) :
  lire_utf8 None (String "%" s) = pour_cent :: lire_utf8 None s.
Proof. reflexivity. Qed.

(** A [%] after a text ends the character being read and is a character
    of its own. *)
Lemma lire_utf8_fin (en_cours : option N) (s : string) :
  lire_utf8 en_cours (String.append s "%") = lire_utf8 en_cours s ++ [pour_cent].
Proof.
  revert en_cours. induction s as [|a s IH]; intros en_cours.
  - destruct en_cours; reflexivity.
  - change (String.append (String a s) "%") with (String a (String.append s "%")).
    cbn [lire_utf8].
    destruct en_cours; repeat case_match; rewrite ?IH; reflexivity.
Qed.

Lemma caracteres_motif (s : string) :
  sans_nul s = true →
  caracteres_sql (motif_de s) = pour_cent :: caracteres_sql s ++ [pour_cent].
Proof.
  intros Hs. unfold caracteres_sql.
  rewrite (avant_nul_sans_nul (motif_de s)) by by apply sans_nul_motif.
  rewrite (avant_nul_sans_nul s) by done.
  change (motif_de s) with (String "%" (String.append s "%")).
  by rewrite lire_utf8_pour_cent, lire_utf8_fin.
Qed.

(** A character of several bytes is never an ASCII character. *)
Lemma clore_grand (c : N) : (0x80 ≤ clore c)%N.
Proof.
  unfold clore. destruct (c <? 0x80)%N eqn:H; [cbn; lia|].
  apply N.ltb_ge in H. cbn [orb]. case_match; lia.
Qed.

Lemma octet_pas_joker (a : ascii) :
  Ascii.eqb a "%" = false → Ascii.eqb a "_" = false →
  N_of_ascii a ≠ pour_cent ∧ N_of_ascii a ≠ souligne.
Proof.
  intros H1 H2. apply Ascii.eqb_neq in H1, H2.
  split; intros H; apply (f_equal ascii_of_N) in H;
    rewrite ascii_N_embedding in H; [by apply H1|by apply H2].
Qed.

(** A text with no wildcard byte has no wildcard character. *)
Lemma lire_utf8_sans_joker (en_cours : option N) (s : string) :
  sans_joker s = true →
  Forall (λ c, c ≠ pour_cent ∧ c ≠ souligne) (lire_utf8 en_cours s).
Proof.
  assert (∀ c, clore c ≠ pour_cent ∧ clore c ≠ souligne) as Hclore.
  { intros c. pose proof (clore_grand c). unfold pour_cent, souligne. lia. }
  revert en_cours. induction s as [|a s IH]; intros en_cours Hs.
  - destruct en_cours; cbn [lire_utf8]; auto.
  - cbn [sans_joker] in Hs. apply andb_true_iff in Hs as [Hc Hs].
    apply andb_true_iff in Hc as [H1 H2]. apply negb_true_iff in H1, H2.
    pose proof (octet_pas_joker a H1 H2).
    cbn [lire_utf8]. destruct en_cours; repeat case_match; auto.
Qed.

Lemma sans_joker_avant_nul (s : string) :
  sans_joker s = true → sans_joker (avant_nul s) = true.
Proof.
  induction s as [|a s IH]; [done|]. cbn [sans_joker avant_nul].
  intros [Hc Hs]%andb_true_iff. case_match; [done|].
  cbn [sans_joker]. by rewrite Hc, IH.
Qed.

Lemma caracteres_sans_joker (s : string) :
  sans_joker s = true → Forall (λ c, c ≠ pour_cent ∧ c ≠ souligne) (caracteres_sql s).
Proof. intros Hs. by apply lire_utf8_sans_joker, sans_joker_avant_nul. Qed.

(** The characters of an ASCII text are its bytes. *)
Lemma ascii_pur_sans_nul (s : string) : ascii_pur s = true → sans_nul s = true.
Proof.
  induction s as [|a s IH]; [done|]. cbn [ascii_pur sans_nul].
  intros [[-> _]%andb_true_iff Hs]%andb_true_iff. by apply IH.
Qed.

Lemma caracteres_ascii (s : string) : ascii_pur s = true → caracteres_sql s = octets_de s.
Proof.
  intros Hs. unfold caracteres_sql. rewrite avant_nul_sans_nul by by apply ascii_pur_sans_nul.
  induction s as [|a s IH]; [done|]. cbn [ascii_pur] in Hs.
  apply andb_true_iff in Hs as [[_ Ha]%andb_true_iff Hs].
  cbn [lire_utf8 octets_de]. apply N.ltb_lt in Ha.
  assert ((0xC0 <=? N_of_ascii a)%N = false) as -> by (apply N.leb_gt; lia).
  by rewrite IH.
Qed.

Lemma ascii_pur_app (a b : string) :
  ascii_pur (String.append a b) = ascii_pur a && ascii_pur b.
Proof.
  induction a as [|c a IH]; [done|].
  change (String.append (String c a) b) with (String c (String.append a b)).
  cbn [ascii_pur]. by rewrite IH, andb_assoc.
Qed.

Lemma octets_app (a b : string) : octets_de (String.append a b) = octets_de a ++ octets_de b.
Proof.
  induction a as [|c a IH]; [done|].
  change (String.append (String c a) b) with (String c (String.append a b)).
  cbn [octets_de]. by rewrite IH.
Qed.

Lemma octets_inj (s t : string) : octets_de s = octets_de t → s = t.
Proof.
  revert t. induction s as [|a s IH]; intros [|b t] H; try done.
  cbn [octets_de] in H. injection H as Hab H.
  apply (f_equal ascii_of_N) in Hab. rewrite !ascii_N_embedding in Hab.
  subst. f_equal. by apply IH.
Qed.

Lemma octets_app_inv (t : string) (x y : list N) :
  octets_de t = x ++ y →
  ∃ t1 t2, t = String.append t1 t2 ∧ octets_de t1 = x ∧ octets_de t2 = y.
Proof.
  revert t. induction x as [|c x IH]; intros t H.
  - by exists "", t.
  - destruct t as [|a t]; [done|]. cbn [octets_de] in H. simpl in H.
    injection H as <- H. apply IH in H as (t1 & t2 & -> & <- & <-).
    by exists (String a t1), t2.
Qed.

(** On ASCII text, under case-sensitive LIKE, the motif of [rechercher]
    on a text without wildcard holds of the names that contain it. *)
Lemma like_motif_ascii (s t : string) :
  ascii_pur s = true → sans_joker s = true → ascii_pur t = true →
  like true (motif_de s) t = true ↔ contient s t.
Proof.
  intros Has Hs Hat. unfold like.
  rewrite caracteres_motif by by apply ascii_pur_sans_nul.
  rewrite like_car_motif by by apply caracteres_sans_joker.
  rewrite (caracteres_ascii s), (caracteres_ascii t) by done.
  unfold contient. split.
  - intros (a & u & b & Ht & H). apply meme_texte_sensible in H as <-.
    apply octets_app_inv in Ht as (ta & r & -> & _ & Hr).
    apply octets_app_inv in Hr as (ts & tb & -> & Hts & _).
    apply octets_inj in Hts as ->. eauto.
  - intros (a & b & ->). exists (octets_de a), (octets_de s), (octets_de b).
    split; [by rewrite !octets_app|]. by apply meme_texte_sensible.
Qed.

Lemma like_motif_vide (casse : bool) (t : string) : like casse (motif_de "") t = true.
Proof.
  unfold like. change (caracteres_sql (motif_de "")) with [pour_cent; pour_cent].
  apply like_car_etoile. exists [], (caracteres_sql t). split; [done|].
  apply like_car_joker_final.
Qed.

(** *** [rechercher] *)

Lemma filtre_tous {A} (f : A → bool) (l : list A) :
  (∀ x, f x = true) → filter (λ x, f x) l = l.
Proof.
  intros H. induction l as [|a l IH]; [done|].
  rewrite filter_cons_True by (rewrite H; exact I). by rewrite IH.
Qed.

Lemma pour_chaque_lignes (lignes : list Ligne) :
  pour_chaque depuis_row (map row_de_ligne lignes) = Retour (map client_de_ligne lignes).
Proof.
  induction lignes as [|l lignes IH]; [done|].
  cbn [map pour_chaque]. rewrite depuis_row_de_ligne, IH. reflexivity.
Qed.

Lemma rechercher_connectee (db : GestionnaireBase) (s : string) :
  connectee db = true →
  rechercher db s =
    Retour (map client_de_ligne
              (merge_sort ordre_nom
                 (filter (λ l, like (casse_like db) (motif_de s) (c_nom_client l))
                         (clients db)))).
Proof.
  intros Hc. unfold rechercher, interroger. rewrite Hc.
  cbn [evaluer lecture lignes_rendues]. apply pour_chaque_lignes.
Qed.

(** C3, as the code has it.  On a usable connection [rechercher] returns
    the records of the lines whose name LIKE accepts for the motif
    [%s%], each once per line, in ascending order of name.  LIKE reads both
    texts as UTF-8 characters up to their first NUL byte and accepts by
    rule: [%] stands for any run of characters, [_] for any one character,
    any other character for itself, ASCII letters in either case unless
    LIKE is case-sensitive.  When [s] has no NUL byte and neither [%] nor
    [_], the lines returned are those whose name has a run of characters
    reading as [s] under that comparison; on ASCII text under
    case-sensitive LIKE they are the lines whose name contains [s]; for the
    empty [s] they are all the lines. *)
Theorem rechercher_like (db : GestionnaireBase) (s : string) :
  connectee db = true →
  ∃ retenues,
    rechercher db s = Retour (map client_de_ligne retenues) ∧
    retenues ≡ₚ filter (λ l, like (casse_like db) (motif_de s) (c_nom_client l))
                       (clients db) ∧
    StronglySorted ordre_nom retenues ∧
    (∀ l, l ∈ retenues ↔
          l ∈ clients db ∧
          accepte (casse_like db) (caracteres_sql (motif_de s))
                  (caracteres_sql (c_nom_client l))) ∧
    (sans_nul s = true → sans_joker s = true →
       ∀ l, l ∈ retenues ↔
            l ∈ clients db ∧
            ∃ a u b, caracteres_sql (c_nom_client l) = a ++ u ++ b ∧
                     meme_texte (casse_like db) (caracteres_sql s) u = true) ∧
    (casse_like db = true → ascii_pur s = true → sans_joker s = true →
       ∀ l, ascii_pur (c_nom_client l) = true →
            l ∈ retenues ↔ l ∈ clients db ∧ contient s (c_nom_client l)) ∧
    (s = "" → retenues ≡ₚ clients db).
Proof.
  intros Hc. eexists. split; [by apply rechercher_connectee|].
  assert (∀ l, l ∈ merge_sort ordre_nom
                     (filter (λ l, like (casse_like db) (motif_de s) (c_nom_client l))
                             (clients db))
               ↔ l ∈ clients db ∧ like (casse_like db) (motif_de s) (c_nom_client l) = true)
    as Hel.
  { intros l. rewrite merge_sort_Permutation, list_elem_of_filter, Is_true_true. tauto. }
  split; [apply merge_sort_Permutation|].
  split; [apply (StronglySorted_merge_sort _)|].
  split; [|split; [|split]].
  - intros l. rewrite Hel. unfold like. by rewrite like_car_accepte.
  - intros Hn Hs l. rewrite Hel. unfold like.
    rewrite caracteres_motif by done.
    rewrite like_car_motif by by apply caracteres_sans_joker.
    tauto.
  - intros Hk Ha Hs l Hl. rewrite Hel, Hk, like_motif_ascii by done. tauto.
  - intros ->. rewrite merge_sort_Permutation.
    rewrite (filtre_tous (λ l, like (casse_like db) (motif_de "") (c_nom_client l))).
    + done.
    + intros l. apply like_motif_vide.
Qed.

Lemma rechercher_like_temoin :
  ∃ retenues,
    rechercher (Exemples.base Exemples.trois) "AR" = Retour (map client_de_ligne retenues) ∧
    retenues ≡ₚ [Exemples.ligne 2 "Martin"] ∧
    StronglySorted ordre_nom retenues.
Proof.
  destruct (rechercher_like (Exemples.base Exemples.trois) "AR" eq_refl)
    as (retenues & H1 & H2 & H3 & _).
  exists retenues. split; [exact H1|]. split; [exact H2|exact H3].
Defined.

(** C3, as stated, fails on a wildcard: the search for [_] returns the
    client named [a], whose name does not contain [_]. *)
Lemma rechercher_joker_contre_exemple :
  rechercher (Exemples.base_casse [Exemples.ligne 1 "a"]) "_"
    = Retour [client_de_ligne (Exemples.ligne 1 "a")] ∧
  ¬ recherche_par_sous_chaine (Exemples.base_casse [Exemples.ligne 1 "a"]) "_".
Proof.
  split; [reflexivity|].
  intros (retenues & Hres & Hiff & _).
  assert (rechercher (Exemples.base_casse [Exemples.ligne 1 "a"]) "_"
          = Retour [client_de_ligne (Exemples.ligne 1 "a")]) as Heq by reflexivity.
  rewrite Heq in Hres. injection Hres as Hres.
  destruct retenues as [|l retenues]; [done|].
  destruct (proj1 (Hiff l)) as [_ (a & b & Hab)]; [by left|].
  assert (c_nom_client l = "a") as Hnom.
  { apply (f_equal (λ r, match r with c :: _ => nom_client c | [] => "" end)) in Hres.
    by simpl in Hres. }
  rewrite Hnom in Hab.
  destruct a as [|c [|c' a]]; simpl in Hab; try done.
Qed.

(** [_] stands for one character, of however many bytes: the search for
    [a_b] finds the name [a], e-acute, [b], and the search for [a__b] does
    not.  A name is read up to its first NUL byte: the search for [b] does
    not find the name [a], NUL, [b], and the search for [a] does. *)
Lemma rechercher_caracteres :
  rechercher (Exemples.base [Exemples.ligne 1 Exemples.a_e_aigu_b]) "a_b"
    = Retour [client_de_ligne (Exemples.ligne 1 Exemples.a_e_aigu_b)] ∧
  rechercher (Exemples.base [Exemples.ligne 1 Exemples.a_e_aigu_b]) "a__b" = Retour [] ∧
  rechercher (Exemples.base [Exemples.ligne 1 Exemples.a_nul_b]) "b" = Retour [] ∧
  rechercher (Exemples.base [Exemples.ligne 1 Exemples.a_nul_b]) "a"
    = Retour [client_de_ligne (Exemples.ligne 1 Exemples.a_nul_b)].
Proof. repeat split; reflexivity. Qed.

(** ** Centring *)

(** C7. With a parent whose origin and size can be read the window is
    placed at [(px + (pw - w) // 2, py + (ph - h) // 2)]; when one of the
    four queries raises, at [((sw - w) // 2, (sh - h) // 2)] for the screen
    size the window reports; and the geometry requested carries that
    position after the size. *)
Theorem centrer_placement (self : FenetreBase) (parent : Widget) (w h : Z) :
  (∀ px py pw ph,
     winfo_rootx parent = Retour px → winfo_rooty parent = Retour py →
     winfo_width parent = Retour pw → winfo_height parent = Retour ph →
     position self parent w h = (px + (pw - w) `div` 2, py + (ph - h) `div` 2)) ∧
  ((∃ e, winfo_rootx parent = Leve e ∨ winfo_rooty parent = Leve e ∨
         winfo_width parent = Leve e ∨ winfo_height parent = Leve e) →
     position self parent w h
       = ((winfo_screenwidth self - w) `div` 2, (winfo_screenheight self - h) `div` 2)) ∧
  geometry (_centrer self parent w h)
    = String.concat "" [str_de_int w; "x"; str_de_int h;
                        "+"; str_de_int (fst (position self parent w h));
                        "+"; str_de_int (snd (position self parent w h))].
Proof.
  split; [|split].
  - intros px py pw ph Hx Hy Hw Hh. unfold position. rewrite Hx, Hy, Hw, Hh. reflexivity.
  - intros (e & H). unfold position.
    destruct (winfo_rootx parent) as [px|], (winfo_rooty parent) as [py|],
      (winfo_width parent) as [pw|], (winfo_height parent) as [ph|];
      try reflexivity.
    destruct H as [H|[H|[H|H]]]; discriminate.
  - unfold _centrer. by destruct (position self parent w h).
Qed.

Lemma centrer_placement_temoin :
  position Exemples.fenetre_neuve Exemples.parent_affiche 400 300 = (50, 0) ∧
  position Exemples.fenetre_neuve Exemples.parent_detruit 400 300 = (760, 390).
Proof.
  split.
  - destruct (centrer_placement Exemples.fenetre_neuve Exemples.parent_affiche 400 300)
      as [H _].
    apply (H 100 50 301 200); reflexivity.
  - destruct (centrer_placement Exemples.fenetre_neuve Exemples.parent_detruit 400 300)
      as (_ & H & _).
    apply H. exists TclError. left. reflexivity.
Defined.

(** ** The image cache *)

Section ProprietesImages.

Variable IMAGES_DIR : string.





(** C10. A request that returns [None] leaves the window, and so its
    cache, as it was; and whatever a request leaves in the cache was there
    before or is the image just decoded from the file of that name. *)
Theorem charger_image_None_cache (d : Disque) (e : Etat) (nom : string)
    (taille : option (Z * Z)) :
  (fst (charger_image IMAGES_DIR d e nom taille) = Retour None →
     fenetre (snd (charger_image IMAGES_DIR d e nom taille)) = fenetre e) ∧
  (∀ cle photo,
     _cache_images (fenetre (snd (charger_image IMAGES_DIR d e nom taille))) !! cle
       = Some photo →
     _cache_images (fenetre e) !! cle = Some photo ∨
     (cle = nom ∧
      fst (PhotoImage_file d (_last_id e) (os_path_join IMAGES_DIR nom)) = Retour photo ∧
      fst (charger_image IMAGES_DIR d e nom taille) = Retour (Some photo))).
Proof.
  unfold charger_image.
  destruct (_cache_images (fenetre e) !! nom) as [p|] eqn:Hcache; [by auto|].
  destruct (negb _); [by auto|].
  destruct (PhotoImage_file d (_last_id e) _) as [[p|[]] n] eqn:Hp; cbn; try by auto.
  split; [done|]. intros cle photo H.
  destruct (decide (nom = cle)) as [<-|Hne].
  - rewrite lookup_insert_eq in H. injection H as <-. by right.
  - rewrite lookup_insert_ne in H by done. by left.
Qed.

End ProprietesImages.


Lemma charger_image_None_cache_temoin :
  fenetre (snd (charger_image "images" Exemples.disque_vide Exemples.etat_neuf
                  "Base_create.png" None))
  = Exemples.fenetre_neuve.
Proof.
  destruct (charger_image_None_cache "images" Exemples.disque_vide Exemples.etat_neuf
              "Base_create.png" None) as [H _].
  apply H. reflexivity.
Defined.

(** * Further properties of the data access object *)

Import Suites.

(** ** Update of an existing line *)

(** What [modifier] does to one line: it takes the values of [client] when
    the identifier is the one sought, and is kept otherwise. *)
Lemma evaluer_update (db : GestionnaireBase) (client : Client) :
  evaluer db UPDATE_client (en_tuple_modification client) =
    match filter (λ l, cle_egale (idclient client) l) (clients db) with
    | [] => ecriture (clients db) 0
    | _ :: _ =>
        match lier_champs (en_tuple_insertion client) with
        | Some ligne =>
            if forallb (λ l, contrainte db (ligne (c_IDCLIENT l)))
                       (filter (λ l, cle_egale (idclient client) l) (clients db))
            then ecriture
                   (map (λ l, if cle_egale (idclient client) l
                              then ligne (c_IDCLIENT l) else l) (clients db))
                   (length (filter (λ l, cle_egale (idclient client) l) (clients db)))
            else None
        | None => None
        end
    end.
Proof.
  unfold en_tuple_modification. cbn [evaluer]. rewrite lier_cle_id. reflexivity.
Qed.

Lemma forallb_cibles (db : GestionnaireBase) (client : Client) (i : Z) :
  contrainte db (ligne_de_client i client) = true →
  forallb (λ l, contrainte db (ligne_de_client (c_IDCLIENT l) client))
          (filter (λ l, cle_egale (Some i) l) (clients db)) = true.
Proof.
  intros Hk. apply forallb_forall. intros l Hl.
  apply list_elem_of_In, list_elem_of_filter in Hl as [Hl _].
  cbn in Hl. apply Is_true_true, Z.eqb_eq in Hl. by rewrite Hl.
Qed.

Lemma filtre_cle_map (cle : option Z) (ligne : Z → Ligne) (table : list Ligne) :
  (∀ id, c_IDCLIENT (ligne id) = id) →
  filter (λ l, cle_egale cle l)
         (map (λ l, if cle_egale cle l then ligne (c_IDCLIENT l) else l) table)
  = map (λ l, ligne (c_IDCLIENT l)) (filter (λ l, cle_egale cle l) table).
Proof.
  intros Hid. induction table as [|l table IH]; [done|]. cbn [map].
  destruct (cle_egale cle l) eqn:Hl.
  - rewrite (filter_cons_True _ l) by (by rewrite Hl).
    rewrite filter_cons_True.
    + cbn [map]. by rewrite IH.
    + destruct cle as [i|]; [|done]. cbn in *. by rewrite Hid, Hl.
  - rewrite !filter_cons_False by (rewrite Hl; auto). exact IH.
Qed.

(** X1. [modifier] of a record whose identifier some line has, on a usable
    connection and with values the table admits: the call answers [True],
    every line of that identifier now holds the values of the record, every
    other line is as it was and where it was, and [lire] of the identifier
    returns the record. *)
Theorem modifier_puis_lire (db : GestionnaireBase) (client : Client) (i : Z) :
  connectee db = true →
  idclient client = Some i →
  i ∈ map c_IDCLIENT (clients db) →
  credit_disponible client ≠ S754_nan →
  contrainte db (ligne_de_client i client) = true →
  fst (modifier db client) = true ∧
  clients (snd (modifier db client))
    = map (λ l, if c_IDCLIENT l =? i then ligne_de_client i client else l) (clients db) ∧
  lire (snd (modifier db client)) i = Retour (Some client).
Proof.
  intros Hc Hid Hin Hn Hk.
  assert (∃ cible cibles,
            filter (λ l, cle_egale (Some i) l) (clients db) = cible :: cibles)
    as (cible & cibles & Hf).
  { apply list_elem_of_fmap in Hin as (l & -> & Hl).
    destruct (filter (λ l0, cle_egale (Some (c_IDCLIENT l)) l0) (clients db))
      as [|c cs] eqn:Hf; [|eauto].
    exfalso. eapply (filter_nil_not_elem_of _ _ l Hf); [|done].
    cbn. rewrite Z.eqb_refl. done. }
  assert (map (λ l, if cle_egale (Some i) l
                    then ligne_de_client (c_IDCLIENT l) client else l) (clients db)
          = map (λ l, if c_IDCLIENT l =? i then ligne_de_client i client else l)
                (clients db)) as Hmap.
  { apply map_ext. intros l. cbn. destruct (c_IDCLIENT l =? i) eqn:E; [|done].
    apply Z.eqb_eq in E. by rewrite E. }
  pose proof (forallb_cibles _ _ _ Hk) as Hfor. rewrite Hf in Hfor.
  unfold modifier, executer. rewrite Hc, evaluer_update, Hid, Hf.
  rewrite (lier_champs_insertion _ Hn), Hfor.
  cbn [ecriture fst snd pas_None clients noter table_apres]. rewrite Hmap.
  split; [done|]. split; [done|].
  unfold lire, interroger. cbn [connectee noter]. rewrite Hc.
  cbn [evaluer lier_cle clients noter lecture lignes_rendues]. rewrite <- Hmap.
  rewrite (filtre_cle_map (Some i) (λ id, ligne_de_client id client)) by done.
  rewrite Hf. cbn [map]. rewrite depuis_row_de_ligne, client_de_ligne_de_client.
  cbn. do 2 f_equal.
  assert (c_IDCLIENT cible = i) as ->.
  { assert (cible ∈ filter (λ l, cle_egale (Some i) l) (clients db)) as Hc'
      by (rewrite Hf; left).
    apply list_elem_of_filter in Hc' as [Hc' _]. cbn in Hc'.
    by apply Is_true_true, Z.eqb_eq in Hc'. }
  destruct client; cbn in *. by subst.
Qed.

Lemma modifier_puis_lire_temoin :
  fst (modifier (Exemples.base Exemples.trois) dupont_4) = true ∧
  lire (snd (modifier (Exemples.base Exemples.trois) dupont_4)) 4 = Retour (Some dupont_4).
Proof.
  destruct (modifier_puis_lire (Exemples.base Exemples.trois) dupont_4 4)
    as (H1 & _ & H3); try reflexivity.
  - right. left.
  - discriminate.
  - split; [exact H1|exact H3].
Defined.

(** ** Writes that are refused *)

Lemma executer_refuse (db : GestionnaireBase) req params :
  fst (executer db req params) = None →
  clients (snd (executer db req params)) = clients db.
Proof. unfold executer. repeat case_match; cbn; done. Qed.

Lemma pas_None_false {A} (o : option A) : pas_None o = false → o = None.
Proof. by destruct o. Qed.

(** X2. A write the DAO reports as failed has left the table as it was:
    [creer] returning [None], and [modifier], [supprimer] and
    [supprimer_plusieurs] returning [False]. *)
Theorem ecriture_refusee_sans_effet (db : GestionnaireBase) (client : Client)
    (i : Z) (ids : list Z) :
  (fst (creer db client) = Retour None →
     clients (snd (creer db client)) = clients db) ∧
  (fst (modifier db client) = false →
     clients (snd (modifier db client)) = clients db) ∧
  (fst (supprimer db i) = false →
     clients (snd (supprimer db i)) = clients db) ∧
  (fst (supprimer_plusieurs db ids) = false →
     clients (snd (supprimer_plusieurs db ids)) = clients db).
Proof.
  split; [|split; [|split]].
  - destruct (connectee db) eqn:Hc.
    + rewrite creer_connectee by done. cbv zeta. repeat case_match; cbn; done.
    + unfold creer. by rewrite interroger_deconnectee.
  - unfold modifier.
    pose proof (executer_refuse db UPDATE_client (en_tuple_modification client)) as H.
    destruct (executer _ _ _) as [c db']. cbn in *. intros Hf. by apply H, pas_None_false.
  - unfold supprimer.
    pose proof (executer_refuse db DELETE_par_id [VInt i]) as H.
    destruct (executer _ _ _) as [c db']. cbn in *. intros Hf. by apply H, pas_None_false.
  - destruct ids as [|j ids]; [done|].
    rewrite supprimer_plusieurs_non_vide by done. cbn [fst snd].
    intros Hf. by apply executer_refuse, pas_None_false.
Qed.

Lemma ecriture_refusee_sans_effet_temoin :
  clients (snd (creer (Exemples.base_fermee Exemples.trois) Exemples.dupont))
    = Exemples.trois ∧
  clients (snd (supprimer (Exemples.base_fermee Exemples.trois) 1)) = Exemples.trois.
Proof.
  destruct (ecriture_refusee_sans_effet (Exemples.base_fermee Exemples.trois)
              Exemples.dupont 1 [1; 2]) as (H1 & _ & H3 & _).
  split; [apply H1|apply H3]; reflexivity.
Defined.

(** ** Counting *)

(** X3. [compter] returns the number of lines of the table, and 0 when the
    query gives no row; after a [creer] that returned an identifier it
    returns one more than before. *)
Theorem compter_lignes (db : GestionnaireBase) :
  (connectee db = true → compter db = Retour (Z.of_nat (length (clients db)))) ∧
  (interroger db SELECT_total [] = [] → compter db = Retour 0) ∧
  (∀ client n db',
     creer db client = (Retour (Some n), db') →
     compter db' = Retour (Z.of_nat (length (clients db)) + 1)).
Proof.
  split; [|split].
  - intros Hc. unfold compter, interroger. rewrite Hc. reflexivity.
  - intros H. unfold compter. by rewrite H.
  - intros client n db' H. destruct (connectee db) eqn:Hc.
    + rewrite creer_connectee in H by done. cbv zeta in H.
      repeat case_match; inversion H; subst.
      all: unfold compter, interroger; cbn [connectee noter]; rewrite Hc.
      all: cbn [evaluer clients noter lecture lignes_rendues row_get].
      all: rewrite length_app, Nat2Z.inj_add; reflexivity.
    + unfold creer in H. rewrite interroger_deconnectee in H by done. discriminate.
Qed.

Lemma compter_lignes_temoin :
  compter (Exemples.base Exemples.trois) = Retour 3 ∧
  compter (Exemples.base_fermee Exemples.trois) = Retour 0 ∧
  compter (snd (creer (Exemples.base Exemples.trois) Exemples.dupont)) = Retour 4.
Proof.
  destruct (compter_lignes (Exemples.base Exemples.trois)) as (H1 & _ & H3).
  destruct (compter_lignes (Exemples.base_fermee Exemples.trois)) as (_ & H2 & _).
  split; [apply H1; reflexivity|]. split; [apply H2; reflexivity|].
  apply (H3 Exemples.dupont 5). reflexivity.
Defined.

(** ** Deletion, one line or several *)

Lemma filtre_identifiant_absent (table : list Ligne) (i : Z) :
  i ∉ map c_IDCLIENT table → filter (λ l, c_IDCLIENT l ≠ i) table = table.
Proof.
  induction table as [|l t IH]; [done|]. cbn [map]. intros Hni.
  apply not_elem_of_cons in Hni as [Hne Hni].
  rewrite filter_cons_True by done. by rewrite IH.
Qed.

Lemma filtre_hors_de_rien (table : list Ligne) :
  filter (λ l, c_IDCLIENT l ∉ @nil Z) table = table.
Proof.
  induction table as [|l t IH]; [done|].
  rewrite filter_cons_True by apply not_elem_of_nil. by rewrite IH.
Qed.

(** X4. On a usable connection [supprimer] answers [True] whether or not a
    line has the identifier; the table keeps the lines of every other
    identifier, unchanged and in place, and is left as it was when no line
    has the identifier. *)
Theorem supprimer_effet (db : GestionnaireBase) (i : Z) :
  connectee db = true →
  fst (supprimer db i) = true ∧
  clients (snd (supprimer db i)) = filter (λ l, c_IDCLIENT l ≠ i) (clients db) ∧
  (i ∉ map c_IDCLIENT (clients db) → clients (snd (supprimer db i)) = clients db).
Proof.
  intros Hc. destruct (supprimer_connectee db i Hc) as [H1 H2].
  split; [done|]. split; [done|]. intros Hni. rewrite H2.
  by apply filtre_identifiant_absent.
Qed.

Lemma supprimer_effet_temoin :
  fst (supprimer (Exemples.base Exemples.trois) 9) = true ∧
  clients (snd (supprimer (Exemples.base Exemples.trois) 9)) = Exemples.trois ∧
  clients (snd (supprimer (Exemples.base Exemples.trois) 4))
    = [Exemples.ligne 1 "Durand"; Exemples.ligne 2 "Martin"].
Proof.
  destruct (supprimer_effet (Exemples.base Exemples.trois) 9 eq_refl) as (H1 & _ & H3).
  destruct (supprimer_effet (Exemples.base Exemples.trois) 4 eq_refl) as (_ & H2 & _).
  split; [exact H1|]. split.
  - apply H3. cbn. intros H. repeat (apply elem_of_cons in H as [H|H]; [discriminate|]).
    inversion H.
  - rewrite H2. reflexivity.
Defined.

Lemma supprimer_connexion (db : GestionnaireBase) (i : Z) :
  connectee (snd (supprimer db i)) = connectee db.
Proof.
  unfold supprimer, executer.
  destruct (connectee db) eqn:Hc; [|exact Hc].
  destruct (evaluer db DELETE_par_id [VInt i]); exact Hc.
Qed.

Lemma supprimer_un_par_un_connexion (db : GestionnaireBase) (ids : list Z) :
  connectee (supprimer_un_par_un db ids) = connectee db.
Proof.
  revert db. induction ids as [|i ids IH]; intros db; [done|].
  cbn. unfold supprimer_un_par_un in IH. by rewrite IH, supprimer_connexion.
Qed.

Lemma supprimer_un_par_un_table (db : GestionnaireBase) (ids : list Z) :
  clients (supprimer_un_par_un db ids)
  = if connectee db then filter (λ l, c_IDCLIENT l ∉ ids) (clients db) else clients db.
Proof.
  revert db. induction ids as [|i ids IH]; intros db.
  - cbn. destruct (connectee db); [|done]. by rewrite filtre_hors_de_rien.
  - change (supprimer_un_par_un db (i :: ids))
      with (supprimer_un_par_un (snd (supprimer db i)) ids).
    rewrite IH, supprimer_connexion. destruct (connectee db) eqn:Hc.
    + destruct (supprimer_connectee db i Hc) as [_ ->].
      rewrite list_filter_filter. apply list_filter_iff. intros l.
      rewrite not_elem_of_cons. tauto.
    + unfold supprimer, executer. by rewrite Hc.
Qed.

Lemma supprimer_plusieurs_table (db : GestionnaireBase) (ids : list Z) :
  clients (snd (supprimer_plusieurs db ids))
  = if connectee db then filter (λ l, c_IDCLIENT l ∉ ids) (clients db) else clients db.
Proof.
  destruct (decide (ids = [])) as [->|Hne].
  - cbn [supprimer_plusieurs snd]. destruct (connectee db); [|done].
    by rewrite filtre_hors_de_rien.
  - rewrite supprimer_plusieurs_non_vide by done. cbn [snd].
    unfold executer. rewrite evaluer_delete_parmi.
    destruct (connectee db); cbn [snd clients noter ecriture table_apres]; [|done].
    apply list_filter_iff. intros l.
    rewrite negb_True, Is_true_true, cle_parmi_entiers. done.
Qed.

(** X5. [supprimer_plusieurs] leaves the table that [supprimer], called on
    each identifier of the list in turn, leaves. *)
Theorem supprimer_plusieurs_un_par_un (db : GestionnaireBase) (ids : list Z) :
  clients (snd (supprimer_plusieurs db ids)) = clients (supprimer_un_par_un db ids).
Proof.
  by rewrite supprimer_un_par_un_table, supprimer_plusieurs_table.
Qed.

(** X6. The table [supprimer_plusieurs] leaves depends on which identifiers
    are in the list, not on their order or on repetitions. *)
Theorem supprimer_plusieurs_ensemble (db : GestionnaireBase) (ids ids' : list Z) :
  (∀ i, i ∈ ids ↔ i ∈ ids') →
  clients (snd (supprimer_plusieurs db ids)) = clients (snd (supprimer_plusieurs db ids')).
Proof.
  intros H. rewrite !supprimer_plusieurs_table.
  destruct (connectee db); [|done].
  apply list_filter_iff. intros l. by rewrite H.
Qed.

Lemma supprimer_plusieurs_ensemble_temoin :
  clients (snd (supprimer_plusieurs (Exemples.base Exemples.trois) [1; 2; 1]))
  = clients (snd (supprimer_plusieurs (Exemples.base Exemples.trois) [2; 1])).
Proof.
  apply supprimer_plusieurs_ensemble. intros i.
  rewrite !elem_of_cons, !elem_of_nil. tauto.
Defined.

(** ** Identifiers *)

Lemma NoDup_map_filter {A B} (f : A → B) (P : A → Prop) `{!∀ x, Decision (P x)}
    (l : list A) :
  NoDup (map f l) → NoDup (map f (filter P l)).
Proof.
  induction l as [|a l IH]; [done|]. cbn [map]. intros Hnd.
  apply NoDup_cons in Hnd as [Hni Hnd]. destruct (decide (P a)).
  - rewrite filter_cons_True by done. cbn [map]. apply NoDup_cons. split; [|auto].
    intros Hin. apply Hni. apply list_elem_of_fmap in Hin as (x & -> & Hx).
    apply list_elem_of_filter in Hx as [_ Hx].
    apply list_elem_of_fmap. eauto.
  - rewrite filter_cons_False by done. auto.
Qed.

Lemma modifier_identifiants (db : GestionnaireBase) (client : Client) :
  map c_IDCLIENT (clients (snd (modifier db client))) = map c_IDCLIENT (clients db).
Proof.
  unfold modifier, executer. destruct (connectee db); [|done].
  rewrite evaluer_update.
  destruct (filter _ (clients db)) as [|cible cibles]; [done|].
  assert (credit_disponible client = S754_nan ∨ credit_disponible client ≠ S754_nan)
    as [Hn|Hn] by (destruct (credit_disponible client); auto).
  - by rewrite (lier_champs_nan _ Hn).
  - rewrite (lier_champs_insertion _ Hn). destruct (forallb _ _); [|done].
    cbn [ecriture snd clients noter table_apres]. rewrite map_map.
    apply map_ext. intros l. by destruct (cle_egale _ l).
Qed.

(** X7. The four writes keep the identifiers of the table distinct. *)
Theorem identifiants_uniques (db : GestionnaireBase) (client : Client)
    (i : Z) (ids : list Z) :
  NoDup (map c_IDCLIENT (clients db)) →
  NoDup (map c_IDCLIENT (clients (snd (creer db client)))) ∧
  NoDup (map c_IDCLIENT (clients (snd (modifier db client)))) ∧
  NoDup (map c_IDCLIENT (clients (snd (supprimer db i)))) ∧
  NoDup (map c_IDCLIENT (clients (snd (supprimer_plusieurs db ids)))).
Proof.
  intros Hnd. split; [|split; [|split]].
  - by apply creer_identifiants_uniques.
  - by rewrite modifier_identifiants.
  - destruct (connectee db) eqn:Hc.
    + destruct (supprimer_connectee db i Hc) as [_ ->]. by apply NoDup_map_filter.
    + unfold supprimer, executer. by rewrite Hc.
  - rewrite supprimer_plusieurs_table. destruct (connectee db); [|done].
    by apply NoDup_map_filter.
Qed.

Lemma NoDup_trois :
  NoDup (map c_IDCLIENT (clients (Exemples.base Exemples.trois))).
Proof.
  cbn. repeat constructor; rewrite ?elem_of_cons, ?elem_of_nil; intros H;
    repeat destruct H as [H|H]; try discriminate; done.
Defined.

Lemma identifiants_uniques_temoin :
  NoDup (map c_IDCLIENT (clients (snd (creer (Exemples.base Exemples.trois)
                                              Exemples.dupont)))).
Proof.
  apply (identifiants_uniques (Exemples.base Exemples.trois) Exemples.dupont 1 [1]).
  exact NoDup_trois.
Defined.

Lemma sql_max_ajout (col : list Z) (n : Z) :
  (∀ i, i ∈ col → i < n) → sql_max (col ++ [n]) = Some n.
Proof.
  intros H. destruct (sql_max_non_vide (col ++ [n])) as [m Hm].
  { by destruct col. }
  rewrite Hm. f_equal. apply sql_max_spec in Hm as [Hin Hmax].
  apply elem_of_app in Hin as [Hin|Hin].
  - apply H in Hin. assert (n ≤ m); [|lia].
    apply Hmax, elem_of_app. right. left.
  - by apply list_elem_of_singleton in Hin.
Qed.

Lemma prochain_strict (table : list Ligne) (i : Z) :
  i ∈ map c_IDCLIENT table → i < coalesce (sql_max (map c_IDCLIENT table)) 0 + 1.
Proof.
  intros Hi. destruct (sql_max_non_vide (map c_IDCLIENT table)) as [m Hm].
  { intros E. rewrite E in Hi. inversion Hi. }
  rewrite Hm. apply sql_max_spec in Hm as [_ Hm]. apply Hm in Hi. cbn. lia.
Qed.

(** What a successful [creer] leaves: the line under the identifier it
    returned, at the end of the table, on the same connection. *)
Lemma creer_reussi (db db1 : GestionnaireBase) (client : Client) (n : Z) :
  creer db client = (Retour (Some n), db1) →
  n = coalesce (sql_max (map c_IDCLIENT (clients db))) 0 + 1 ∧
  connectee db = true ∧ connectee db1 = true ∧ contrainte db1 = contrainte db ∧
  clients db1 = clients db ++ [ligne_de_client n client].
Proof.
  intros H. destruct (connectee db) eqn:Hc.
  - rewrite creer_connectee in H by done. cbv zeta in H.
    repeat case_match; inversion H; subst; cbn; auto.
  - unfold creer in H. rewrite interroger_deconnectee in H by done. discriminate.
Qed.

(** X8. After a [creer] that returned [n], the next [creer] of a record the
    table admits returns [n + 1]. *)
Theorem creer_consecutifs (db db1 : GestionnaireBase) (c1 c2 : Client) (n : Z) :
  creer db c1 = (Retour (Some n), db1) →
  credit_disponible c2 ≠ S754_nan →
  contrainte db (ligne_de_client (n + 1) c2) = true →
  fst (creer db1 c2) = Retour (Some (n + 1)).
Proof.
  intros H Hn Hk. apply creer_reussi in H as (Hnid & Hc & Hc1 & Hk1 & Ht).
  rewrite creer_connectee by done. cbv zeta. rewrite Ht, map_app. cbn [map].
  change (c_IDCLIENT (ligne_de_client n c1)) with n.
  rewrite sql_max_ajout.
  - cbn [coalesce]. rewrite Hk1, Hk. by destruct (credit_disponible c2).
  - intros i Hi. rewrite Hnid. by apply prochain_strict.
Qed.

Lemma creer_consecutifs_temoin :
  fst (creer (snd (creer (Exemples.base Exemples.trois) Exemples.dupont)) Exemples.dupont)
  = Retour (Some 6).
Proof.
  apply (creer_consecutifs (Exemples.base Exemples.trois) _ Exemples.dupont _ 5);
    [reflexivity|discriminate|reflexivity].
Defined.

(** X9. The identifier of the line created last is given again once that line
    is deleted: after a [creer] that returned [n] and a [supprimer] of [n],
    the next [creer] of a record the table admits returns [n]. *)
Theorem creer_reprend_identifiant (db db1 : GestionnaireBase) (c1 c2 : Client) (n : Z) :
  creer db c1 = (Retour (Some n), db1) →
  credit_disponible c2 ≠ S754_nan →
  contrainte db (ligne_de_client n c2) = true →
  fst (creer (snd (supprimer db1 n)) c2) = Retour (Some n).
Proof.
  intros H Hn Hk. apply creer_reussi in H as (Hnid & Hc & Hc1 & Hk1 & Ht).
  assert (clients (snd (supprimer db1 n)) = clients db) as Htable.
  { destruct (supprimer_connectee db1 n Hc1) as [_ ->]. rewrite Ht, filter_app.
    rewrite filtre_identifiant_absent.
    - rewrite filter_cons_False, filter_nil, app_nil_r; [done|]. cbn. auto.
    - intros Hin. apply prochain_strict in Hin. lia. }
  assert (contrainte (snd (supprimer db1 n)) = contrainte db) as Hk2.
  { rewrite <- Hk1. unfold supprimer, executer. rewrite Hc1.
    by destruct (evaluer db1 DELETE_par_id [VInt n]). }
  rewrite creer_connectee by (by rewrite supprimer_connexion).
  cbv zeta. rewrite Htable, Hk2, <- Hnid, Hk. by destruct (credit_disponible c2).
Qed.

Lemma creer_reprend_identifiant_temoin :
  fst (creer (snd (supprimer (snd (creer (Exemples.base Exemples.trois) Exemples.dupont))
                             5))
             Exemples.dupont)
  = Retour (Some 5).
Proof.
  apply (creer_reprend_identifiant (Exemples.base Exemples.trois) _ Exemples.dupont _ 5);
    [reflexivity|discriminate|reflexivity].
Defined.

(** ** Reading *)

Lemma row_get_cas (row : Row) (colonne : string) :
  (∃ v, row_get row colonne = Retour v) ∨ row_get row colonne = Leve IndexError.
Proof.
  induction row as [|[c v] row IH]; [by right|]. cbn.
  destruct (String.eqb c colonne); eauto.
Qed.

(** X10. [depuis_row] raises [IndexError] on a row that lacks one of the ten
    columns, whichever it is and whatever the other columns hold. *)
Theorem depuis_row_colonne_absente (row : Row) (colonne : string) :
  colonne ∈ colonnes →
  row_get row colonne = Leve IndexError →
  depuis_row row = Leve IndexError.
Proof.
  intros Hin Habs. unfold colonnes in Hin.
  repeat (apply elem_of_cons in Hin as [->|Hin]); [..|inversion Hin];
    unfold depuis_row;
    repeat (match goal with
            | |- (row_get row ?c ≫= _) = _ =>
                let H := fresh "H" in
                destruct (row_get_cas row c) as [[? H]|H];
                [ try congruence; rewrite H; cbn [mbind resultat_bind]
                | rewrite H; reflexivity ]
            end).
Qed.

Lemma depuis_row_colonne_absente_temoin :
  depuis_row row_sans_ville = Leve IndexError.
Proof.
  apply (depuis_row_colonne_absente row_sans_ville "ville"); [|reflexivity].
  unfold colonnes. do 5 right. left.
Defined.

Lemma filtre_unique (table : list Ligne) (l : Ligne) :
  NoDup (map c_IDCLIENT table) → l ∈ table →
  filter (λ x, cle_egale (Some (c_IDCLIENT l)) x) table = [l].
Proof.
  induction table as [|a t IH]; intros Hnd Hl; [inversion Hl|].
  cbn [map] in Hnd. apply NoDup_cons in Hnd as [Hni Hnd].
  apply elem_of_cons in Hl as [->|Hl].
  - rewrite filter_cons_True by (cbn; rewrite Z.eqb_refl; exact I).
    rewrite filtre_aucun; [done|]. apply cle_sans_cible. intros x Hx [= E].
    apply Hni. rewrite <- E. apply list_elem_of_fmap. eauto.
  - rewrite filter_cons_False.
    + by apply IH.
    + cbn. intros E. apply Is_true_true, Z.eqb_eq in E. apply Hni. rewrite E.
      apply list_elem_of_fmap. eauto.
Qed.

Lemma lire_ligne (db : GestionnaireBase) (l : Ligne) :
  connectee db = true → NoDup (map c_IDCLIENT (clients db)) → l ∈ clients db →
  lire db (c_IDCLIENT l) = Retour (Some (client_de_ligne l)).
Proof.
  intros Hc Hnd Hl. unfold lire, interroger. rewrite Hc.
  cbn [evaluer lier_cle lecture lignes_rendues].
  rewrite (filtre_unique _ _ Hnd Hl). cbn [map].
  by rewrite depuis_row_de_ligne.
Qed.

(** X11. On a usable connection [lire] returns [None] for an identifier no line
    has; and, the identifiers of the table being distinct, it returns for
    the identifier of each line the record of that line. *)
Theorem lire_trouve (db : GestionnaireBase) :
  connectee db = true →
  (∀ i, i ∉ map c_IDCLIENT (clients db) → lire db i = Retour None) ∧
  (NoDup (map c_IDCLIENT (clients db)) →
   ∀ l, l ∈ clients db → lire db (c_IDCLIENT l) = Retour (Some (client_de_ligne l))).
Proof.
  intros Hc. split.
  - intros i Hi. unfold lire, interroger. rewrite Hc.
    cbn [evaluer lier_cle lecture lignes_rendues].
    rewrite filtre_aucun; [done|]. apply cle_sans_cible. intros l Hl [= E].
    apply Hi. rewrite <- E. apply list_elem_of_fmap. eauto.
  - intros Hnd l Hl. by apply lire_ligne.
Qed.

Lemma lire_trouve_temoin :
  lire (Exemples.base Exemples.trois) 9 = Retour None ∧
  lire (Exemples.base Exemples.trois) 4
    = Retour (Some (client_de_ligne (Exemples.ligne 4 "albert"))).
Proof.
  destruct (lire_trouve (Exemples.base Exemples.trois) eq_refl) as [H1 H2].
  split.
  - apply H1. cbn. intros H. repeat (apply elem_of_cons in H as [H|H]; [discriminate|]).
    inversion H.
  - apply (H2 NoDup_trois (Exemples.ligne 4 "albert")). right. left.
Defined.

(** X12. Every record [rechercher] returns carries an identifier, and, the
    identifiers of the table being distinct, [lire] of that identifier
    returns the same record. *)
Theorem rechercher_puis_lire (db : GestionnaireBase) (s : string) (res : list Client) :
  connectee db = true →
  NoDup (map c_IDCLIENT (clients db)) →
  rechercher db s = Retour res →
  ∀ c, c ∈ res → ∃ i, idclient c = Some i ∧ lire db i = Retour (Some c).
Proof.
  intros Hc Hnd Hres c Hin. rewrite rechercher_connectee in Hres by done.
  injection Hres as <-. apply list_elem_of_fmap in Hin as (l & -> & Hl).
  rewrite merge_sort_Permutation in Hl. apply list_elem_of_filter in Hl as [_ Hl].
  exists (c_IDCLIENT l). split; [done|].
  by apply lire_ligne.
Qed.

Lemma rechercher_puis_lire_temoin :
  ∃ i, idclient (client_de_ligne (Exemples.ligne 2 "Martin")) = Some i ∧
       lire (Exemples.base Exemples.trois) i
         = Retour (Some (client_de_ligne (Exemples.ligne 2 "Martin"))).
Proof.
  apply (rechercher_puis_lire (Exemples.base Exemples.trois) "AR"
           [client_de_ligne (Exemples.ligne 2 "Martin")] eq_refl NoDup_trois eq_refl).
  left.
Defined.

(** ** Update twice *)

Lemma modifier_connectee (db : GestionnaireBase) (client : Client) :
  connectee db = true →
  modifier db client =
    (pas_None (evaluer db UPDATE_client (en_tuple_modification client)),
     noter db UPDATE_client (en_tuple_modification client)
       (match evaluer db UPDATE_client (en_tuple_modification client) with
        | Some e => table_apres e
        | None => clients db
        end)).
Proof.
  intros Hc. unfold modifier, executer. rewrite Hc.
  by destruct (evaluer db UPDATE_client (en_tuple_modification client)).
Qed.

Lemma forallb_map_compose {A B} (f : A → B) (p : B → bool) (l : list A) :
  forallb p (map f l) = forallb (λ x, p (f x)) l.
Proof. induction l as [|a l IH]; [done|]. cbn. by rewrite IH. Qed.

(** X13. [modifier] called a second time with the same record answers as the
    first call did and leaves the table the first call left. *)
Theorem modifier_idempotent (db : GestionnaireBase) (client : Client) :
  fst (modifier (snd (modifier db client)) client) = fst (modifier db client) ∧
  clients (snd (modifier (snd (modifier db client)) client))
    = clients (snd (modifier db client)).
Proof.
  destruct (connectee db) eqn:Hc.
  2: { unfold modifier, executer. rewrite Hc. cbn [snd connectee noter]. by rewrite Hc. }
  rewrite (modifier_connectee db) by done. cbn [fst snd].
  rewrite modifier_connectee by done. cbn [fst snd clients noter].
  rewrite !evaluer_update. cbn [clients noter contrainte].
  destruct (filter (λ l, cle_egale (idclient client) l) (clients db))
    as [|cible cibles] eqn:Hf.
  { cbn [ecriture table_apres pas_None]. by rewrite Hf. }
  assert (credit_disponible client = S754_nan ∨ credit_disponible client ≠ S754_nan)
    as [Hn|Hn] by (destruct (credit_disponible client); auto).
  { rewrite (lier_champs_nan _ Hn). by rewrite Hf. }
  rewrite (lier_champs_insertion _ Hn).
  destruct (forallb _ (cible :: cibles)) eqn:Hfor.
  2: { by rewrite Hf, Hfor. }
  cbn [ecriture table_apres pas_None].
  rewrite (filtre_cle_map (idclient client) (λ id, ligne_de_client id client)) by done.
  rewrite Hf. cbn [map].
  rewrite <- (map_cons (λ l, ligne_de_client (c_IDCLIENT l) client)).
  rewrite forallb_map_compose. cbn [c_IDCLIENT ligne_de_client] in *. rewrite Hfor.
  cbn [ecriture table_apres pas_None]. split; [done|].
  rewrite map_map. apply map_ext. intros l.
  destruct (cle_egale (idclient client) l) eqn:Hl; [|by rewrite Hl].
  destruct (idclient client) as [i|]; [|done]. cbn in *. by rewrite Hl.
Qed.

(** * Further properties of the window *)

(** ** Centring *)

Lemma position_sur_ecran (self : FenetreBase) (parent : Widget) (w h : Z) :
  (∃ e, winfo_rootx parent = Leve e ∨ winfo_rooty parent = Leve e ∨
        winfo_width parent = Leve e ∨ winfo_height parent = Leve e) →
  position self parent w h
    = ((winfo_screenwidth self - w) `div` 2, (winfo_screenheight self - h) `div` 2).
Proof.
  intros (e & H). unfold position.
  destruct (winfo_rootx parent) as [px|], (winfo_rooty parent) as [py|],
    (winfo_width parent) as [pw|], (winfo_height parent) as [ph|];
    try reflexivity.
  destruct H as [H|[H|[H|H]]]; discriminate.
Qed.

(** X14. The window is centred to the pixel: with a readable parent the margin
    on the right (below) is the margin on the left (above), or one pixel
    more; a window no larger than its parent lies within it.  Without
    a readable parent the same holds against the screen. *)
Theorem centrer_marges (self : FenetreBase) (parent : Widget) (w h : Z) :
  (∀ px py pw ph,
     winfo_rootx parent = Retour px → winfo_rooty parent = Retour py →
     winfo_width parent = Retour pw → winfo_height parent = Retour ph →
     let x := fst (position self parent w h) in
     let y := snd (position self parent w h) in
     (x - px ≤ (px + pw) - (x + w) ≤ x - px + 1) ∧
     (y - py ≤ (py + ph) - (y + h) ≤ y - py + 1) ∧
     (w ≤ pw → px ≤ x ∧ x + w ≤ px + pw) ∧
     (h ≤ ph → py ≤ y ∧ y + h ≤ py + ph)) ∧
  ((∃ e, winfo_rootx parent = Leve e ∨ winfo_rooty parent = Leve e ∨
         winfo_width parent = Leve e ∨ winfo_height parent = Leve e) →
     let x := fst (position self parent w h) in
     let y := snd (position self parent w h) in
     (x ≤ winfo_screenwidth self - (x + w) ≤ x + 1) ∧
     (y ≤ winfo_screenheight self - (y + h) ≤ y + 1)).
Proof.
  split.
  - intros px py pw ph Hx Hy Hw Hh. unfold position. rewrite Hx, Hy, Hw, Hh.
    cbn [mbind resultat_bind fst snd].
    pose proof (Z.div_mod (pw - w) 2 ltac:(lia)).
    pose proof (Z.mod_pos_bound (pw - w) 2 ltac:(lia)).
    pose proof (Z.div_mod (ph - h) 2 ltac:(lia)).
    pose proof (Z.mod_pos_bound (ph - h) 2 ltac:(lia)).
    repeat split; lia.
  - intros Hx. rewrite (position_sur_ecran _ _ _ _ Hx). cbn [fst snd].
    pose proof (Z.div_mod (winfo_screenwidth self - w) 2 ltac:(lia)).
    pose proof (Z.mod_pos_bound (winfo_screenwidth self - w) 2 ltac:(lia)).
    pose proof (Z.div_mod (winfo_screenheight self - h) 2 ltac:(lia)).
    pose proof (Z.mod_pos_bound (winfo_screenheight self - h) 2 ltac:(lia)).
    repeat split; lia.
Qed.

Lemma centrer_marges_temoin :
  let x := fst (position Exemples.fenetre_neuve Exemples.parent_affiche 200 100) in
  100 ≤ x ∧ x + 200 ≤ 100 + 301.
Proof.
  destruct (centrer_marges Exemples.fenetre_neuve Exemples.parent_affiche 200 100)
    as [H _].
  destruct (H 100 50 301 200 eq_refl eq_refl eq_refl eq_refl) as (_ & _ & Hx & _).
  apply Hx. lia.
Defined.

(** ** The image cache over several requests *)

Section SuitesImages.

Variable IMAGES_DIR : string.

(** What one request leaves in the cache: what was there, and the image
    just decoded under the requested name when there was none. *)
Lemma charger_image_cache_apres (d : Disque) (e : Etat) (nom : string)
    (taille : option (Z * Z)) :
  _cache_images (fenetre (snd (charger_image IMAGES_DIR d e nom taille)))
    = _cache_images (fenetre e)
  ∨ (_cache_images (fenetre e) !! nom = None ∧
     ∃ contenu,
       fichiers d !! os_path_join IMAGES_DIR nom = Some contenu ∧
       lisible d contenu = true ∧
       _last_id (snd (charger_image IMAGES_DIR d e nom taille)) = S (_last_id e) ∧
       _cache_images (fenetre (snd (charger_image IMAGES_DIR d e nom taille)))
         = <[nom := {| nom_tcl := S (_last_id e); octets := contenu |}]>
             (_cache_images (fenetre e))).
Proof.
  unfold charger_image.
  destruct (_cache_images (fenetre e) !! nom) as [p|] eqn:Hcache; [by left|].
  destruct (negb _); [by left|]. unfold PhotoImage_file.
  destruct (fichiers d !! os_path_join IMAGES_DIR nom) as [contenu|]; [|by left].
  destruct (lisible d contenu) eqn:Hl; [|by left].
  right. split; [done|]. exists contenu. cbn. done.
Qed.

Lemma charger_image_compteur (d : Disque) (e : Etat) (nom : string)
    (taille : option (Z * Z)) :
  (_last_id e ≤ _last_id (snd (charger_image IMAGES_DIR d e nom taille)))%nat.
Proof.
  unfold charger_image.
  destruct (_cache_images (fenetre e) !! nom); [done|].
  destruct (negb _); [done|]. unfold PhotoImage_file.
  destruct (fichiers d !! os_path_join IMAGES_DIR nom) as [contenu|]; [|cbn; lia].
  destruct (lisible d contenu); cbn; lia.
Qed.

(** X15. The cache only grows: an image in the cache is still there, under the
    same name, after any further requests, whatever the disk holds at
    each. *)
Theorem cache_conserve (e : Etat) (demandes : list (Disque * string))
    (cle : string) (photo : PhotoImage) :
  _cache_images (fenetre e) !! cle = Some photo →
  _cache_images (fenetre (charger_images IMAGES_DIR e demandes)) !! cle = Some photo.
Proof.
  revert e. induction demandes as [|[d nom] demandes IH]; intros e H; [done|].
  apply IH. cbn [fst snd].
  destruct (charger_image_cache_apres d e nom None) as [->|(Hnone & c & _ & _ & _ & ->)];
    [done|].
  rewrite lookup_insert_ne; [done|]. intros <-. congruence.
Qed.

Lemma images_distinctes_pas (d : Disque) (e : Etat) (nom : string)
    (taille : option (Z * Z)) :
  images_distinctes e →
  images_distinctes (snd (charger_image IMAGES_DIR d e nom taille)).
Proof.
  intros [Hb Hd]. unfold images_distinctes.
  pose proof (charger_image_compteur d e nom taille) as Hcpt.
  destruct (charger_image_cache_apres d e nom taille)
    as [Heq|(Hnone & c & _ & _ & Hid & Heq)]; rewrite Heq; split.
  - intros cle photo H. apply Hb in H. lia.
  - exact Hd.
  - intros cle photo H. rewrite Hid.
    destruct (decide (nom = cle)) as [<-|Hne].
    + rewrite lookup_insert_eq in H. injection H as <-. cbn. lia.
    + rewrite lookup_insert_ne in H by done. apply Hb in H. lia.
  - intros cle cle' photo photo' H H' Hn.
    destruct (decide (nom = cle)) as [<-|Hne], (decide (nom = cle')) as [<-|Hne'];
      [done|..].
    + rewrite lookup_insert_eq in H. rewrite lookup_insert_ne in H' by done.
      injection H as <-. apply Hb in H'. cbn in Hn. lia.
    + rewrite lookup_insert_ne in H by done. rewrite lookup_insert_eq in H'.
      injection H' as <-. apply Hb in H. cbn in Hn. lia.
    + rewrite lookup_insert_ne in H, H' by done. eauto.
Qed.

(** X16. Starting from an empty cache, two different file names never get the
    same Tcl image, whatever the requests made and whatever the disk holds
    at each of them. *)
Theorem images_par_nom (e : Etat) (demandes : list (Disque * string))
    (cle cle' : string) (photo photo' : PhotoImage) :
  _cache_images (fenetre e) = ∅ →
  _cache_images (fenetre (charger_images IMAGES_DIR e demandes)) !! cle = Some photo →
  _cache_images (fenetre (charger_images IMAGES_DIR e demandes)) !! cle' = Some photo' →
  cle ≠ cle' →
  nom_tcl photo ≠ nom_tcl photo'.
Proof.
  intros Hvide H H' Hne Hn.
  assert (images_distinctes (charger_images IMAGES_DIR e demandes)) as [_ Hd].
  { assert (images_distinctes e) as Hinv.
    { split; [intros k p Hk|intros k k' p p' Hk];
        rewrite Hvide, lookup_empty in Hk; done. }
    clear H H' Hvide. revert e Hinv.
    induction demandes as [|[d nom] demandes IH]; intros e Hinv; [done|].
    apply IH. by apply images_distinctes_pas. }
  apply Hne. eauto.
Qed.

Lemma cache_fidele_pas (d : Disque) (e : Etat) (nom : string)
    (taille : option (Z * Z)) :
  cache_fidele IMAGES_DIR d e →
  cache_fidele IMAGES_DIR d (snd (charger_image IMAGES_DIR d e nom taille)).
Proof.
  intros Hinv cle photo.
  destruct (charger_image_cache_apres d e nom taille)
    as [->|(_ & c & Hf & Hl & _ & ->)]; [apply Hinv|].
  destruct (decide (nom = cle)) as [<-|Hne].
  - rewrite lookup_insert_eq. intros [= <-]. done.
  - rewrite lookup_insert_ne by done. apply Hinv.
Qed.

Lemma cache_fidele_suite (d : Disque) (e : Etat) (noms : list string) :
  cache_fidele IMAGES_DIR d e →
  cache_fidele IMAGES_DIR d (charger_images IMAGES_DIR e (sur_disque d noms)).
Proof.
  revert e. induction noms as [|nom noms IH]; intros e Hinv; [done|].
  apply IH. by apply cache_fidele_pas.
Qed.

(** X17. While the disk stays as it is, and starting from an empty cache, what
    a request returns is decided by the file alone, whatever was requested
    before: [None] for a file that is missing or not decodable, an image
    of the file's content otherwise. *)
Theorem charger_image_disque_fixe (d : Disque) (e : Etat) (noms : list string)
    (nom : string) :
  _cache_images (fenetre e) = ∅ →
  let e' := charger_images IMAGES_DIR e (sur_disque d noms) in
  (os_path_isfile d (os_path_join IMAGES_DIR nom) = false ∨
   (∃ contenu, fichiers d !! os_path_join IMAGES_DIR nom = Some contenu ∧
               lisible d contenu = false) →
   fst (charger_image IMAGES_DIR d e' nom None) = Retour None) ∧
  (∀ contenu,
     fichiers d !! os_path_join IMAGES_DIR nom = Some contenu →
     lisible d contenu = true →
     ∃ photo, fst (charger_image IMAGES_DIR d e' nom None) = Retour (Some photo) ∧
              octets photo = contenu).
Proof.
  intros Hvide e'.
  assert (cache_fidele IMAGES_DIR d e') as Hinv.
  { apply cache_fidele_suite. intros cle photo H. by rewrite Hvide, lookup_empty in H. }
  split.
  - intros Habs. unfold charger_image.
    destruct (_cache_images (fenetre e') !! nom) as [p|] eqn:Hcache.
    + apply Hinv in Hcache as [Hf Hl]. exfalso.
      destruct Habs as [Habs|(c & Hc & Hl')].
      * unfold os_path_isfile in Habs. by rewrite Hf in Habs.
      * rewrite Hf in Hc. injection Hc as <-. congruence.
    + destruct Habs as [->|(c & Hc & Hl')]; [done|].
      unfold os_path_isfile, PhotoImage_file. by rewrite Hc, Hl'.
  - intros contenu Hf Hl. unfold charger_image.
    destruct (_cache_images (fenetre e') !! nom) as [p|] eqn:Hcache.
    + exists p. split; [done|]. apply Hinv in Hcache as [Hf' _]. congruence.
    + unfold os_path_isfile, PhotoImage_file. rewrite Hf, Hl. cbn. eauto.
Qed.

End SuitesImages.

Lemma cache_conserve_temoin :
  _cache_images
    (fenetre (charger_images "images" Exemples.etat_charge
                [(Exemples.disque_vide, "Base_create.png");
                 (Exemples.disque_jpeg, "Base_delete.png")]))
    !! "Base_create.png"
  = Some {| nom_tcl := 1; octets := "PNG create" |}.
Proof. apply cache_conserve. reflexivity. Defined.

Lemma images_par_nom_temoin :
  nom_tcl {| nom_tcl := 1; octets := "PNG create" |}
  ≠ nom_tcl {| nom_tcl := 2; octets := "PNG delete" |}.
Proof.
  apply (images_par_nom "images" Exemples.etat_neuf
           [(disque_deux, "Base_create.png"); (disque_deux, "Base_delete.png")]
           "Base_create.png" "Base_delete.png"
           {| nom_tcl := 1; octets := "PNG create" |}
           {| nom_tcl := 2; octets := "PNG delete" |});
    [reflexivity|reflexivity|reflexivity|discriminate].
Defined.

Lemma charger_image_disque_fixe_temoin :
  fst (charger_image "images" disque_deux
         (charger_images "images" Exemples.etat_neuf
            (sur_disque disque_deux ["Base_create.png"; "absent.png"]))
         "absent.png" None)
  = Retour None.
Proof.
  apply (charger_image_disque_fixe "images" disque_deux Exemples.etat_neuf
           ["Base_create.png"; "absent.png"] "absent.png" eq_refl).
  left. reflexivity.
Defined.

(** * Properties of the ttk styles *)

Import Styles.

Section ProprietesStyles.

Variable police : Type.
Variable COULEURS : gmap string string.
Variable POLICES : gmap string police.

Lemma couleur_fait (r : string) (v : valeur_tk police) :
  couleur police COULEURS r = Fait v → is_Some (COULEURS !! r).
Proof. unfold couleur. destruct (COULEURS !! r); [eauto|done]. Qed.

Lemma couleur_KeyError (r cle : string) :
  couleur police COULEURS r = KeyError cle → cle = r ∧ COULEURS !! r = None.
Proof. unfold couleur. destruct (COULEURS !! r); [done|]. by intros [= ->]. Qed.

Lemma fonte_fait (r : string) (v : valeur_tk police) :
  fonte police POLICES r = Fait v → is_Some (POLICES !! r).
Proof. unfold fonte. destruct (POLICES !! r); [eauto|done]. Qed.

Lemma fonte_KeyError (r cle : string) :
  fonte police POLICES r = KeyError cle → cle = r ∧ POLICES !! r = None.
Proof. unfold fonte. destruct (POLICES !! r); [done|]. by intros [= ->]. Qed.

Ltac dans_roles :=
  unfold roles_couleurs, roles_polices; repeat first [by left | right].

Ltac calculer :=
  lazy beta iota zeta delta
    [a_la_suite configure map_ theme_use arguments par_etat poser fold_left
     fst snd theme options dynamiques].

(** Reading the roles one after the other, in the order of the source,
    the two dictionaries being kept out of the computation. *)
Ltac lire_roles :=
  unfold appliquer_style_ttk;
  pose proof couleur_fait as HcF; pose proof couleur_KeyError as HcK;
  pose proof fonte_fait as HpF; pose proof fonte_KeyError as HpK;
  set (lc := couleur police COULEURS) in *;
  set (lp := fonte police POLICES) in *;
  clearbody lc lp;
  destruct (lc "fond_secondaire") as [c1|k] eqn:H1; [|calculer];
  [destruct (lc "texte_principal") as [c2|k] eqn:H2; [|calculer]|];
  [destruct (lp "normale") as [p1|k] eqn:H3; [|calculer]|..];
  [destruct (lc "entete_tableau") as [c3|k] eqn:H4; [|calculer]|..];
  [destruct (lc "texte_clair") as [c4|k] eqn:H5; [|calculer]|..];
  [destruct (lp "sous_titre") as [p2|k] eqn:H6; [|calculer]|..];
  [destruct (lc "selection") as [c5|k] eqn:H7; [|calculer]|..];
  [destruct (lc "fond_bouton") as [c6|k] eqn:H8; [|calculer]|..];
  [destruct (lc "fond_bouton_hover") as [c7|k] eqn:H9; [|calculer]|..];
  [destruct (lc "fond_principal") as [c8|k] eqn:H10; [|calculer]|..];
  [destruct (lc "bordure") as [c9|k] eqn:H11; calculer|..].

(** In a branch where a role was found missing: which one it is. *)
Ltac role_manquant :=
  match goal with
  | HcK : ∀ r cle, ?lc r = KeyError cle → _, H : ?lc _ = KeyError _ |- _ =>
      apply HcK in H; destruct H as [-> H]
  end.

(** X19. [appliquer_style_ttk] succeeds exactly when the nine colour roles and
    the two font roles it reads are defined.  Otherwise it raises
    [KeyError] on one of them that is missing.  Either way the theme in
    use is then [clam], and no setting of another theme has changed. *)
Theorem style_roles (st : Style police) :
  (fst (appliquer_style_ttk police COULEURS POLICES st) = Fait tt ↔
     (∀ r, r ∈ roles_couleurs → is_Some (COULEURS !! r)) ∧
     (∀ r, r ∈ roles_polices → is_Some (POLICES !! r))) ∧
  (∀ cle, fst (appliquer_style_ttk police COULEURS POLICES st) = KeyError cle →
     (cle ∈ roles_couleurs ∧ COULEURS !! cle = None) ∨
     (cle ∈ roles_polices ∧ POLICES !! cle = None)) ∧
  theme (snd (appliquer_style_ttk police COULEURS POLICES st)) = "clam" ∧
  (∀ th nom opt, th ≠ "clam" →
     options (snd (appliquer_style_ttk police COULEURS POLICES st)) !! (th, nom, opt)
       = options st !! (th, nom, opt) ∧
     dynamiques (snd (appliquer_style_ttk police COULEURS POLICES st)) !! (th, nom, opt)
       = dynamiques st !! (th, nom, opt)).
Proof.
  lire_roles.
  1: { split; [|split; [|split]].
       - split; [|done]. intros _. split; intros r Hr.
         + unfold roles_couleurs in Hr.
           repeat (apply elem_of_cons in Hr as [->|Hr]); [..|inversion Hr];
             eapply HcF; eassumption.
         + unfold roles_polices in Hr.
           repeat (apply elem_of_cons in Hr as [->|Hr]); [..|inversion Hr];
             eapply HpF; eassumption.
       - done.
       - done.
       - intros th nom opt Hth.
         split; rewrite !lookup_insert_ne by congruence; done. }
  all: role_manquant.
  all: split; [|split; [|split]].
  all: try (split; [done|]; intros [Hc Hp]; exfalso; eapply is_Some_None;
            match goal with
            | Hn : _ !! _ = None |- _ =>
                rewrite <- Hn; first [apply Hc | apply Hp]; dans_roles
            end).
  all: try (intros cle [= <-];
            first [ left; split; [dans_roles|assumption]
                  | right; split; [dans_roles|assumption] ]).
  all: try done.
  all: intros th nom opt Hth; split; rewrite ?lookup_insert_ne by congruence; done.
Qed.

Lemma lookup_insert_deux {K V} `{Countable K} (m1 m2 : gmap K V) (k j : K) (v : V) :
  (k ≠ j → m1 !! j = m2 !! j) → <[k:=v]> m1 !! j = <[k:=v]> m2 !! j.
Proof.
  intros Hne. destruct (decide (k = j)) as [->|Hkj].
  - by rewrite !lookup_insert_eq.
  - rewrite !lookup_insert_ne by done. auto.
Qed.

(** Setting again, over a map, the options it was just given. *)
Ltac reposer :=
  apply map_eq; intros j;
  repeat (apply lookup_insert_deux; intros ?);
  rewrite !lookup_insert_ne by assumption; reflexivity.

(** X20. [appliquer_style_ttk] applied again after it succeeded succeeds and
    changes nothing: theme, options and state maps are those the first
    application left. *)
Theorem style_idempotent (st : Style police) :
  fst (appliquer_style_ttk police COULEURS POLICES st) = Fait tt →
  appliquer_style_ttk police COULEURS POLICES
    (snd (appliquer_style_ttk police COULEURS POLICES st))
  = (Fait tt, snd (appliquer_style_ttk police COULEURS POLICES st)).
Proof.
  destruct st as [theme0 options0 dynamiques0].
  lire_roles; try (intros H; discriminate H).
  intros _. f_equal. f_equal; reposer.
Qed.

End ProprietesStyles.

Lemma roles_complets :
  (∀ r, r ∈ roles_couleurs → is_Some (couleurs_completes !! r)) ∧
  (∀ r, r ∈ roles_polices → is_Some (polices_completes !! r)).
Proof.
  split; intros r Hr.
  - unfold roles_couleurs in Hr.
    repeat (apply elem_of_cons in Hr as [->|Hr]); [..|inversion Hr];
      eexists; reflexivity.
  - unfold roles_polices in Hr.
    repeat (apply elem_of_cons in Hr as [->|Hr]); [..|inversion Hr];
      eexists; reflexivity.
Defined.

Lemma style_roles_temoin :
  fst (appliquer_style_ttk (string * Z) couleurs_completes polices_completes style_initial)
  = Fait tt.
Proof.
  apply (proj1 (style_roles (string * Z) couleurs_completes polices_completes
                  style_initial)).
  exact roles_complets.
Defined.

Lemma style_idempotent_temoin :
  appliquer_style_ttk (string * Z) couleurs_completes polices_completes
    (snd (appliquer_style_ttk (string * Z) couleurs_completes polices_completes
            style_initial))
  = (Fait tt,
     snd (appliquer_style_ttk (string * Z) couleurs_completes polices_completes
            style_initial)).
Proof. apply style_idempotent. reflexivity. Defined.
